(** * dead-air: audio analysis scripts of the visualizer

    A shallow embedding of [packages/visualizer-poc/scripts/analyze.py]
    (per-track feature alignment, normalisation, section detection and
    assembly of the per-track record) and of
    [packages/visualizer-poc/scripts/analyze_show.py] (the batch runner that
    builds the show timeline), followed by the properties of the
    specification that concern them.  The two sidecar scripts of the
    pipeline, [packages/pipeline/scripts/analyze_audio.py] (key estimation
    and the requested analyses) and [packages/pipeline/scripts/align_lyrics.py]
    (word and segment extraction), are embedded as well.

    Conventions of the embedding.
    - Python [float]s and numpy float arrays are exact rationals ([Q]); a
      1-D array is a [list Q], a 2-D array a list of rows together with its
      second dimension.
    - Python [int]s that count frames, windows or clusters are [nat]; the
      number of samples of a waveform is an [N].
    - A Python call either returns or raises: [Py.result].
    - The calls into librosa and scikit-learn are not part of the
      repository.  What librosa computes from the waveform is an input of the
      model ([analyze.extracted]); the labelling computed by scikit-learn is
      an arbitrary function passed as a parameter.  In the sidecars the
      correlation coefficient of numpy and [str.strip] are parameters too,
      and the value WhisperX returns is an input. *)

From Stdlib Require Import QArith Qround Qminmax ZArith Lia Lqa Ascii String.
From stdpp Require Import gmap strings list pretty.

Local Open Scope nat_scope.

(** ** Python and numpy primitives used by the scripts *)
Module Py.

(** The exceptions the modelled code can raise.  [LoaderError] carries the
    class name of whatever the audio decoder raised. *)
Inductive pyexn : Type :=
| SystemExit (code : Z)
| ValueError
| IndexError
| LoaderError (name : string).

Definition exn_name (e : pyexn) : string :=
  match e with
  | SystemExit _ => "SystemExit"
  | ValueError => "ValueError"
  | IndexError => "IndexError"
  | LoaderError name => name
  end.

Inductive result (A : Type) : Type :=
| Ok (a : A)
| Raise (e : pyexn).
Arguments Ok {A} a.
Arguments Raise {A} e.

Definition bind {A B} (m : result A) (k : A -> result B) : result B :=
  match m with
  | Ok a => k a
  | Raise e => Raise e
  end.

(** [[f(x) for x in xs]] where [f] may raise. *)
Fixpoint mapM {A B} (f : A -> result B) (xs : list A) : result (list B) :=
  match xs with
  | [] => Ok []
  | x :: xs' =>
      bind (f x) (fun y => bind (mapM f xs') (fun ys => Ok (y :: ys)))
  end.

(** [arr[i]] on a sequence: [IndexError] out of range. *)
Definition getitem {A} (arr : list A) (i : nat) : result A :=
  match arr !! i with
  | Some v => Ok v
  | None => Raise IndexError
  end.

(** [arr[a:b]] for [0 <= a], [0 <= b]: bounds are clamped. *)
Definition slice {A} (arr : list A) (a b : nat) : list A :=
  take (b - a) (drop a arr).

Definition Qltb (x y : Q) : bool := negb (Qle_bool y x).

Definition Qsum (arr : list Q) : Q := fold_left Qplus arr 0%Q.

(** [arr.mean()] of a non-empty array. *)
Definition mean (arr : list Q) : Q :=
  (Qsum arr / inject_Z (Z.of_nat (length arr)))%Q.

Definition pow10 (ndigits : nat) : positive :=
  Z.to_pos (10 ^ Z.of_nat ndigits).

(** Nearest integer, ties to the even one. *)
Definition round_half_even (x : Q) : Z :=
  let d := Zpos (Qden x) in
  let q := (Qnum x / d)%Z in
  let r := (Qnum x mod d)%Z in
  match (2 * r ?= d)%Z with
  | Lt => q
  | Gt => (q + 1)%Z
  | Eq => if Z.even q then q else (q + 1)%Z
  end.

(** [round(x, ndigits)]: the nearest multiple of [10^-ndigits]. *)
Definition pyround (x : Q) (ndigits : nat) : Q :=
  Qmake (round_half_even (x * inject_Z (Zpos (pow10 ndigits)))%Q)
        (pow10 ndigits).

(** [str(n)] for a non-negative [int]. *)
Definition str_of_nat (n : nat) : string := pretty n.

End Py.

Export Py.

Notation "x <- m ;; k" := (Py.bind m (fun x => k))
  (at level 100, m at next level, right associativity).

(** ** analyze.py *)
Module analyze.

Definition SR : Z := 22050.
Definition HOP_LENGTH : Z := 735.
Definition FPS : nat := 30.

(** A 2-D numpy array of shape [(length rows, shape1)]. *)
Record array2 : Type := Array2 { shape1 : nat; rows : list (list Q) }.

Definition shape0 (a : array2) : nat := length (rows a).

(** Every row has [shape1] entries, as in any numpy array. *)
Definition rectangular (a : array2) : bool :=
  forallb (fun r => length r =? shape1 a) (rows a).

(** [arr.min()] and [arr.max()]: numpy raises [ValueError] on an empty
    array. *)
Definition arr_min (arr : list Q) : result Q :=
  match arr with
  | [] => Raise ValueError
  | x :: r => Ok (fold_left Qmin r x)
  end.

Definition arr_max (arr : list Q) : result Q :=
  match arr with
  | [] => Raise ValueError
  | x :: r => Ok (fold_left Qmax r x)
  end.

Definition epsilon : Q := 1 # 10000000000.

Definition zeros_like (arr : list Q) : list Q := map (fun _ => 0%Q) arr.

Definition normalize (arr : list Q) : result (list Q) :=
  mn <- arr_min arr ;;
  mx <- arr_max arr ;;
  if Qltb (mx - mn) epsilon then Ok (zeros_like arr)
  else Ok (map (fun x => ((x - mn) / (mx - mn))%Q) arr).

Definition zeros (n : nat) : list Q := replicate n 0%Q.

(** [S[mask, :].sum(axis=0)]: the sum, column by column, of the selected
    rows. *)
Definition sum_axis0 (ncols : nat) (rs : list (list Q)) : list Q :=
  fold_left (fun acc r => zip_with Qplus acc r) rs (zeros ncols).

Definition band_energy (S : array2) (freqs : list Q) (lo hi : Q) : list Q :=
  let mask := map (fun f => Qle_bool lo f && Qltb f hi) freqs in
  if negb (existsb id mask) then zeros (shape1 S)
  else sum_axis0 (shape1 S)
         (map snd (filter (fun mr => fst mr = true) (zip mask (rows S)))).

(** [np.pad(arr, (0, length - len(arr)), mode="edge")] repeats the last
    value and raises [ValueError] when there is none. *)
Definition pad_or_trim {A} (arr : list A) (length_ : nat) : result (list A) :=
  if length_ <=? length arr then Ok (take length_ arr)
  else match last arr with
       | Some v => Ok (arr ++ replicate (length_ - length arr) v)
       | None => Raise ValueError
       end.

Definition pad_or_trim_2d (arr : array2) (length_ : nat) : result array2 :=
  if length_ <=? shape1 arr
  then Ok (Array2 length_ (map (take length_) (rows arr)))
  else if shape1 arr =? 0 then Raise ValueError
  else Ok (Array2 length_
             (map (fun r => r ++ replicate (length_ - shape1 arr)
                                   (default 0%Q (last r)))
                  (rows arr))).

(** *** Section detection *)

Inductive tier : Type := low | mid | high.

Record section : Type := Section_ {
  frameStart : nat;
  frameEnd : nat;
  label : string;
  energy : tier;
  avgEnergy : Q
}.

(** The body shared by the two places that close a section: mean of the
    normalised RMS over the range, its tier, and the record appended to
    [sections]. *)
Definition avg_energy_of (rms_norm : list Q) (frame_start frame_end : nat) : Q :=
  if frame_start <? frame_end then mean (slice rms_norm frame_start frame_end)
  else 0%Q.

Definition energy_label_of (avg_energy : Q) : tier :=
  if Qltb (1 # 2) avg_energy then high
  else if Qltb (1 # 4) avg_energy then mid
  else low.

Definition close_section (rms_norm : list Q) (sections : list section)
    (frame_start frame_end : nat) : list section :=
  let avg_energy := avg_energy_of rms_norm frame_start frame_end in
  sections ++
    [ {| frameStart := frame_start;
         frameEnd := frame_end;
         label := "section_" +:+ str_of_nat (length sections);
         energy := energy_label_of avg_energy;
         avgEnergy := pyround avg_energy 3 |} ].

Definition seg_hop : nat := 5 * FPS.

Definition n_segs_of (n_frames : nat) : nat := Nat.max 1 (n_frames / seg_hop).

(** Lines 63-66: the number of clusters requested. *)
Definition n_clusters_of (n_segs : nat) : nat :=
  let n_clusters := Nat.min (Nat.max 3 (n_segs / 4)) 12 in
  if n_segs <=? n_clusters then Nat.max 2 (n_segs - 1) else n_clusters.

(** Lines 56-61: the MFCC columns of each window averaged row by row; a
    window that starts beyond the MFCC frames keeps its zeros. *)
Definition seg_features_of (mfcc : array2) (n_segs : nat) : list (list Q) :=
  map (fun i =>
         let start := i * seg_hop in
         let end_ := Nat.min ((i + 1) * seg_hop) (shape1 mfcc) in
         if start <? shape1 mfcc
         then map (fun row => mean (slice row start end_)) (rows mfcc)
         else zeros (shape0 mfcc))
      (seq 0 n_segs).

(** The labelling computed by scikit-learn: any function from the number
    of clusters and the window features to one label per window. *)
Definition labelling : Type := nat -> list (list Q) -> list nat.

(** [AgglomerativeClustering(n_clusters, connectivity).fit_predict(X)].
    scikit-learn validates its input before clustering: it raises
    [ValueError] for fewer than two samples and when more clusters than
    samples are requested.  The labels themselves are the parameter [lab]. *)
Definition fit_predict (lab : labelling) (n_clusters : nat)
    (X : list (list Q)) : result (list nat) :=
  if (length X <? 2) || (length X <? n_clusters) then Raise ValueError
  else Ok (lab n_clusters X).

Record merge_state : Type := MergeState {
  sections : list section;
  current_label : nat;
  section_start : nat
}.

(** One iteration of [for i in range(1, len(labels))] with [l = labels[i]]. *)
Definition merge_step (n_frames : nat) (rms_norm : list Q)
    (st : merge_state) (i l : nat) : merge_state :=
  if negb (l =? current_label st) then
    let frame_start := section_start st * seg_hop in
    let frame_end := Nat.min (i * seg_hop) n_frames in
    {| sections := close_section rms_norm (sections st) frame_start frame_end;
       current_label := l;
       section_start := i |}
  else st.

(** The loop, run over [labels[i:]] from index [i]. *)
Fixpoint merge_loop (n_frames : nat) (rms_norm : list Q)
    (rest : list nat) (i : nat) (st : merge_state) : merge_state :=
  match rest with
  | [] => st
  | l :: rest' =>
      merge_loop n_frames rms_norm rest' (S i)
        (merge_step n_frames rms_norm st i l)
  end.

(** Lines 74-106: consecutive windows with the same label are merged. *)
Definition merge_labels (n_frames : nat) (rms_norm : list Q)
    (labels : list nat) : result (list section) :=
  l0 <- getitem labels 0 ;;
  let st := merge_loop n_frames rms_norm (drop 1 labels) 1
              {| sections := []; current_label := l0; section_start := 0 |} in
  let frame_start := section_start st * seg_hop in
  let frame_end := n_frames in
  Ok (close_section rms_norm (sections st) frame_start frame_end).

Definition detect_sections (lab : labelling) (mfcc : array2)
    (n_frames : nat) (rms_norm : list Q) : result (list section) :=
  let n_segs := n_segs_of n_frames in
  let seg_features := seg_features_of mfcc n_segs in
  let n_clusters := n_clusters_of n_segs in
  labels <- fit_predict lab n_clusters seg_features ;;
  merge_labels n_frames rms_norm labels.

(** *** The per-track pipeline *)

(** What librosa computes from the decoded waveform [y]: the inputs of
    the code under study. *)
Record extracted : Type := Extracted {
  y_len : N;                  (* len(y) *)
  x_rms : list Q;             (* librosa.feature.rms(...)[0] *)
  x_cent : list Q;            (* librosa.feature.spectral_centroid(...)[0] *)
  x_onset : list Q;           (* librosa.onset.onset_strength(...) *)
  x_tempo : Q;                (* tempo_val *)
  x_beat_frames : list nat;   (* beat_frames *)
  x_S : array2;               (* np.abs(librosa.stft(...)) *)
  x_freqs : list Q;           (* librosa.fft_frequencies(...) *)
  x_chroma : array2;          (* librosa.feature.chroma_cqt(...) *)
  x_contrast : array2;        (* librosa.feature.spectral_contrast(...) *)
  x_flatness : list Q;        (* librosa.feature.spectral_flatness(...)[0] *)
  x_mfcc : array2             (* librosa.feature.mfcc(...) *)
}.

Record frame : Type := Frame {
  f_rms : Q;
  f_centroid : Q;
  f_onset : Q;
  f_beat : bool;
  f_sub : Q;
  f_low : Q;
  f_mid : Q;
  f_high : Q;
  f_chroma : list Q;
  f_contrast : list Q;
  f_flatness : Q
}.

Record meta : Type := Meta {
  source : string;
  duration : Q;
  fps : nat;
  sr : Z;
  hopLength : Z;
  totalFrames : nat;
  tempo : Q;
  m_sections : list section
}.

Record output : Type := Output { o_meta : meta; o_frames : list frame }.

(** A file of the audio directory: librosa decodes it, or raises. *)
Inductive audio_file : Type :=
| Decodes (x : extracted)
| Undecodable (exn_class : string).

(** The files the scripts touch: audio files by path, and the per-track
    analyses written so far, by path. *)
Record world : Type := World {
  audio : gmap string audio_file;
  analyses : gmap string output
}.

(** [Path.name]: what follows the last slash. *)
Fixpoint name_from (p cur : string) : string :=
  match p with
  | EmptyString => cur
  | String c r =>
      if bool_decide (c = "/"%char) then name_from r EmptyString
      else name_from r (cur +:+ String c EmptyString)
  end.

Definition path_name (p : string) : string := name_from p EmptyString.

Definition duration_of (x : extracted) : Q :=
  (inject_Z (Z.of_N (y_len x)) / inject_Z SR)%Q.

Definition n_frames_of (x : extracted) : nat :=
  Z.to_nat (Qceiling (duration_of x * inject_Z (Z.of_nat FPS))%Q).

(** [[round(float(arr[c, i]), 3) for c in range(n)]] *)
Definition column (arr : array2) (n i : nat) : result (list Q) :=
  mapM (fun c => row <- getitem (rows arr) c ;;
                 v <- getitem row i ;;
                 Ok (pyround v 3))
       (seq 0 n).

(** The aligned streams, as they stand on line 200. *)
Record aligned : Type := Aligned {
  a_rms : list Q;
  a_cent : list Q;
  a_onset : list Q;
  a_sub : list Q;
  a_low : list Q;
  a_mid : list Q;
  a_high : list Q;
  a_chroma : array2;
  a_contrast : array2;
  a_flatness : list Q
}.

(** Lines 124-199: normalisation of every stream, then alignment to
    [n_frames]. *)
Definition align_streams (x : extracted) (n_frames : nat) : result aligned :=
  rms_norm <- normalize (x_rms x) ;;
  cent_norm <- normalize (x_cent x) ;;
  onset_norm <- normalize (x_onset x) ;;
  sub <- normalize (band_energy (x_S x) (x_freqs x) 0 100) ;;
  low <- normalize (band_energy (x_S x) (x_freqs x) 100 400) ;;
  mid <- normalize (band_energy (x_S x) (x_freqs x) 400 2000) ;;
  high <- normalize (band_energy (x_S x) (x_freqs x) 2000 8000) ;;
  let chroma := x_chroma x in
  contrast_rows <- mapM normalize (rows (x_contrast x)) ;;
  let contrast_norm := Array2 (shape1 (x_contrast x)) contrast_rows in
  flatness_norm <- normalize (x_flatness x) ;;
  rms_norm <- pad_or_trim rms_norm n_frames ;;
  cent_norm <- pad_or_trim cent_norm n_frames ;;
  onset_norm <- pad_or_trim onset_norm n_frames ;;
  sub <- pad_or_trim sub n_frames ;;
  low <- pad_or_trim low n_frames ;;
  mid <- pad_or_trim mid n_frames ;;
  high <- pad_or_trim high n_frames ;;
  chroma <- pad_or_trim_2d chroma n_frames ;;
  contrast_norm <- pad_or_trim_2d contrast_norm n_frames ;;
  flatness_norm <- pad_or_trim flatness_norm n_frames ;;
  Ok (Aligned rms_norm cent_norm onset_norm sub low mid high
              chroma contrast_norm flatness_norm).

(** Lines 208-220: the record of frame [i]. *)
Definition build_frame (a : aligned) (beat_set : list nat) (i : nat)
    : result frame :=
  rms <- getitem (a_rms a) i ;;
  cent <- getitem (a_cent a) i ;;
  onset <- getitem (a_onset a) i ;;
  sub <- getitem (a_sub a) i ;;
  low <- getitem (a_low a) i ;;
  mid <- getitem (a_mid a) i ;;
  high <- getitem (a_high a) i ;;
  chroma <- column (a_chroma a) 12 i ;;
  contrast <- column (a_contrast a) 7 i ;;
  flatness <- getitem (a_flatness a) i ;;
  Ok {| f_rms := pyround rms 4;
        f_centroid := pyround cent 4;
        f_onset := pyround onset 4;
        f_beat := bool_decide (i ∈ beat_set);
        f_sub := pyround sub 4;
        f_low := pyround low 4;
        f_mid := pyround mid 4;
        f_high := pyround high 4;
        f_chroma := chroma;
        f_contrast := contrast;
        f_flatness := pyround flatness 4 |}.

(** Lines 119-234 for a decoded waveform: the record that is returned
    and written. *)
Definition analyze_decoded (lab : labelling) (name : string) (x : extracted)
    : result output :=
  let duration := duration_of x in
  let n_frames := n_frames_of x in
  a <- align_streams x n_frames ;;
  sections <- detect_sections lab (x_mfcc x) n_frames (a_rms a) ;;
  frames <- mapM (build_frame a (x_beat_frames x)) (seq 0 n_frames) ;;
  Ok {| o_meta := {| source := name;
                     duration := pyround duration 2;
                     fps := FPS;
                     sr := SR;
                     hopLength := HOP_LENGTH;
                     totalFrames := n_frames;
                     tempo := pyround (x_tempo x) 1;
                     m_sections := sections |};
        o_frames := frames |}.

(** [analyze_track(audio_path, output_path)]: the returned record and the
    files after the call. *)
Definition analyze_track (lab : labelling) (w : world)
    (audio_path output_path : string) : result (output * world) :=
  match audio w !! audio_path with
  | None => Raise (SystemExit 1)
  | Some (Undecodable exn_class) => Raise (LoaderError exn_class)
  | Some (Decodes x) =>
      out <- analyze_decoded lab (path_name audio_path) x ;;
      Ok (out, {| audio := audio w;
                  analyses := <[output_path := out]> (analyses w) |})
  end.

End analyze.

(** ** analyze_show.py *)
Module analyze_show.
Import analyze.

Definition TRACKS_DIR : string := "data/tracks".

Definition FPS : nat := 30.

(** [dir / file] *)
Definition path_join (dir file : string) : string := dir +:+ "/" +:+ file.

Record song : Type := Song {
  trackId : string;
  title : string;
  audioFile : string
}.

Record setlist : Type := Setlist { date : string; songs : list song }.

(** An entry of [timeline_tracks]; [missing] is [false] where the
    dictionary has no such key. *)
Record timeline_entry : Type := TimelineEntry {
  e_trackId : string;
  globalFrameStart : nat;
  globalFrameEnd : nat;
  e_totalFrames : nat;
  missing : bool
}.

Record timeline : Type := Timeline {
  t_date : string;
  t_totalFrames : nat;
  totalDuration : Q;
  tracks : list timeline_entry
}.

(** What the runner does with the files of one song, in order. *)
Inductive event : Type :=
| Skipped (audio_path : string)
| LoadedAnalysis (output_path : string)
| Analyzed (audio_path output_path : string).

(** The variables of [main] that the loop updates, the files, and the
    trace of file accesses. *)
Record run_state : Type := RunState {
  timeline_tracks : list timeline_entry;
  global_offset : nat;
  total_duration : Q;
  files : world;
  trace : list event
}.

Definition audio_path_of (audio_dir : string) (s : song) : string :=
  path_join audio_dir (audioFile s).

Definition output_path_of (s : song) : string :=
  path_join TRACKS_DIR (trackId s +:+ "-analysis.json").

Definition exists_audio (w : world) (path : string) : bool :=
  bool_decide (is_Some (audio w !! path)).

(** Lines 84-96: the frame count and duration of a track whose audio
    exists.  When [resume and output_path.exists()] they are read from the
    persisted analysis, which [json.load] returns as [json.dump] wrote it;
    otherwise the track is analysed. *)
Definition track_metadata (lab : labelling) (resume : bool)
    (audio_path output_path : string) (w : world) (tr : list event)
    : result (nat * Q * world * list event) :=
  match (if resume then analyses w !! output_path else None) with
  | Some existing =>
      Ok (totalFrames (o_meta existing), duration (o_meta existing),
          w, tr ++ [LoadedAnalysis output_path])
  | None =>
      r <- analyze_track lab w audio_path output_path ;;
      Ok (totalFrames (o_meta (fst r)), duration (o_meta (fst r)),
          snd r, tr ++ [Analyzed audio_path output_path])
  end.

(** One iteration of [for song in setlist["songs"]]. *)
Definition process_song (lab : labelling) (resume : bool) (audio_dir : string)
    (st : run_state) (s : song) : result run_state :=
  let track_id := trackId s in
  let audio_path := audio_path_of audio_dir s in
  let output_path := output_path_of s in
  if negb (exists_audio (files st) audio_path) then
    Ok {| timeline_tracks :=
            timeline_tracks st ++
              [ {| e_trackId := track_id;
                   globalFrameStart := global_offset st;
                   globalFrameEnd := global_offset st;
                   e_totalFrames := 0;
                   missing := true |} ];
          global_offset := global_offset st;
          total_duration := total_duration st;
          files := files st;
          trace := trace st ++ [Skipped audio_path] |}
  else
    m <- track_metadata lab resume audio_path output_path
           (files st) (trace st) ;;
    let '(total_frames, track_duration, w, tr) := m in
    Ok {| timeline_tracks :=
            timeline_tracks st ++
              [ {| e_trackId := track_id;
                   globalFrameStart := global_offset st;
                   globalFrameEnd := global_offset st + total_frames;
                   e_totalFrames := total_frames;
                   missing := false |} ];
          global_offset := global_offset st + total_frames;
          total_duration := (total_duration st + track_duration)%Q;
          files := w;
          trace := tr |}.

Fixpoint run_songs (lab : labelling) (resume : bool) (audio_dir : string)
    (ss : list song) (st : run_state) : result run_state :=
  match ss with
  | [] => Ok st
  | s :: ss' =>
      st' <- process_song lab resume audio_dir st s ;;
      run_songs lab resume audio_dir ss' st'
  end.

Definition initial_state (w : world) : run_state :=
  {| timeline_tracks := [];
     global_offset := 0;
     total_duration := 0%Q;
     files := w;
     trace := [] |}.

Definition timeline_of (sl : setlist) (st : run_state) : timeline :=
  {| t_date := date sl;
     t_totalFrames := global_offset st;
     totalDuration := pyround (total_duration st) 2;
     tracks := timeline_tracks st |}.

(** [main()] from line 62 on, for a resolved audio directory: the
    timeline written to [show-timeline.json], the files afterwards and the
    trace of file accesses.  An exception leaves no timeline. *)
Definition main (lab : labelling) (resume : bool) (audio_dir : string)
    (sl : setlist) (w : world) : result (timeline * world * list event) :=
  st <- run_songs lab resume audio_dir (songs sl) (initial_state w) ;;
  Ok (timeline_of sl st, files st, trace st).

End analyze_show.

(** ** The specification's vocabulary *)
Module Spec.
Import analyze analyze_show.

(** *** Frame alignment *)

(** [aligned] is [native] reconciled to [n] entries: cut at the end when
    longer, extended with copies of its last value when shorter. *)
Definition reconciled {A} (native aligned : list A) (n : nat) : Prop :=
  length aligned = n ∧
  (n ≤ length native → aligned = take n native) ∧
  (length native < n →
     ∃ v, last native = Some v ∧
          aligned = native ++ replicate (n - length native) v).

(** The same along the frame axis of a 2-D stream, row by row. *)
Definition reconciled_2d (native aligned : array2) (n : nat) : Prop :=
  shape1 aligned = n ∧
  Forall2 (fun r r' => reconciled r r' n) (rows native) (rows aligned).

(** [s] is the normalised stream [raw], reconciled to [n] entries. *)
Definition normalized_then_reconciled (raw s : list Q) (n : nat) : Prop :=
  ∃ norm, normalize raw = Ok norm ∧ reconciled norm s n.

(** Every stream of [a] is the corresponding stream of [x], normalised
    where the pipeline normalises it, reconciled to [n] frames. *)
Record aligned_to (x : extracted) (a : aligned) (n : nat) : Prop := AlignedTo {
  al_rms : normalized_then_reconciled (x_rms x) (a_rms a) n;
  al_cent : normalized_then_reconciled (x_cent x) (a_cent a) n;
  al_onset : normalized_then_reconciled (x_onset x) (a_onset a) n;
  al_sub :
    normalized_then_reconciled
      (band_energy (x_S x) (x_freqs x) 0 100) (a_sub a) n;
  al_low :
    normalized_then_reconciled
      (band_energy (x_S x) (x_freqs x) 100 400) (a_low a) n;
  al_mid :
    normalized_then_reconciled
      (band_energy (x_S x) (x_freqs x) 400 2000) (a_mid a) n;
  al_high :
    normalized_then_reconciled
      (band_energy (x_S x) (x_freqs x) 2000 8000) (a_high a) n;
  al_chroma : reconciled_2d (x_chroma x) (a_chroma a) n;
  al_contrast :
    ∃ norm_rows,
      mapM normalize (rows (x_contrast x)) = Ok norm_rows ∧
      reconciled_2d (Array2 (shape1 (x_contrast x)) norm_rows)
                    (a_contrast a) n;
  al_flatness : normalized_then_reconciled (x_flatness x) (a_flatness a) n
}.




(** *** Rounding of the serialized values *)

(** [v] is entry [i] of [stream] rounded to [ndigits] places. *)
Definition rounded_at (stream : list Q) (i ndigits : nat) (v : Q) : Prop :=
  ∃ raw, stream !! i = Some raw ∧ v = pyround raw ndigits.

(** [vs] is column [i] of the first [k] rows of [arr], each entry
    rounded to 3 places. *)
Definition column_rounded (arr : array2) (i k : nat) (vs : list Q) : Prop :=
  length vs = k ∧
  ∀ c v, vs !! c = Some v →
         ∃ row, rows arr !! c = Some row ∧ rounded_at row i 3 v.

Record frame_precision (a : aligned) (i : nat) (f : frame) : Prop :=
  FramePrecision {
    fp_rms : rounded_at (a_rms a) i 4 (f_rms f);
    fp_centroid : rounded_at (a_cent a) i 4 (f_centroid f);
    fp_onset : rounded_at (a_onset a) i 4 (f_onset f);
    fp_sub : rounded_at (a_sub a) i 4 (f_sub f);
    fp_low : rounded_at (a_low a) i 4 (f_low f);
    fp_mid : rounded_at (a_mid a) i 4 (f_mid f);
    fp_high : rounded_at (a_high a) i 4 (f_high f);
    fp_flatness : rounded_at (a_flatness a) i 4 (f_flatness f);
    fp_chroma : column_rounded (a_chroma a) i 12 (f_chroma f);
    fp_contrast : column_rounded (a_contrast a) i 7 (f_contrast f)
  }.

Definition section_precision (rms_norm : list Q) (s : section) : Prop :=
  avgEnergy s =
    pyround (avg_energy_of rms_norm (frameStart s) (frameEnd s)) 3.

(** The precision of every float of the per-track record, as the code
    rounds it. *)
Record output_precision (x : extracted) (a : aligned) (out : output) : Prop :=
  OutputPrecision {
    op_duration : duration (o_meta out) = pyround (duration_of x) 2;
    op_tempo : tempo (o_meta out) = pyround (x_tempo x) 1;
    op_sections : Forall (section_precision (a_rms a))
                         (m_sections (o_meta out));
    op_frames : ∀ i f, o_frames out !! i = Some f → frame_precision a i f
  }.

(** The specification's reading for the scalars outside the frames:
    four decimal places each. *)
Definition spec_scalars_four_places (x : extracted) (a : aligned)
    (out : output) : Prop :=
  (duration (o_meta out) == pyround (duration_of x) 4)%Q ∧
  (tempo (o_meta out) == pyround (x_tempo x) 4)%Q ∧
  Forall (fun s =>
            (avgEnergy s ==
               pyround (avg_energy_of (a_rms a) (frameStart s) (frameEnd s))
                       4)%Q)
         (m_sections (o_meta out)).

(** *** Target cluster count, in the specification's words *)

Definition clamp (v lo hi : nat) : nat := Nat.min (Nat.max v lo) hi.

(** [clamp(round(numWindows / 4), 3, 12)], reduced to
    [max(2, numWindows - 1)] when there are fewer windows than that. *)
Definition spec_target_clusters (numWindows : nat) : nat :=
  let target :=
    clamp (Z.to_nat (round_half_even (inject_Z (Z.of_nat numWindows) / 4)%Q))
          3 12 in
  if numWindows <? target then Nat.max 2 (numWindows - 1) else target.

(** *** Sections *)

(** [secs] runs from frame [a] to frame [b]: each section starts where
    the previous one ended. *)
Fixpoint chain (a : nat) (secs : list section) (b : nat) : Prop :=
  match secs with
  | [] => a = b
  | s :: rest => frameStart s = a ∧ a ≤ frameEnd s ∧ chain (frameEnd s) rest b
  end.

Definition contains (s : section) (f : nat) : Prop :=
  frameStart s ≤ f ∧ f < frameEnd s.

Record exact_cover (secs : list section) (total : nat) : Prop := ExactCover {
  cover_first : ∃ s, secs !! 0 = Some s ∧ frameStart s = 0;
  cover_last : ∃ s, last secs = Some s ∧ frameEnd s = total;
  cover_contiguous :
    ∀ i s t, secs !! i = Some s → secs !! (S i) = Some t →
             frameStart t = frameEnd s;
  cover_ordered :
    ∀ i j s t, i ≤ j → secs !! i = Some s → secs !! j = Some t →
               frameStart s ≤ frameStart t;
  cover_unique :
    ∀ f, f < total →
         ∃ i s, secs !! i = Some s ∧ contains s f ∧
                ∀ j t, secs !! j = Some t → contains t f → j = i
}.

(** *** The show timeline *)

Definition missing_entry (s : song) (offset : nat) : timeline_entry :=
  {| e_trackId := trackId s;
     globalFrameStart := offset;
     globalFrameEnd := offset;
     e_totalFrames := 0;
     missing := true |}.

Definition track_entry (s : song) (offset total_frames : nat)
    : timeline_entry :=
  {| e_trackId := trackId s;
     globalFrameStart := offset;
     globalFrameEnd := offset + total_frames;
     e_totalFrames := total_frames;
     missing := false |}.

(** [processed au resume dir off ss es evs off']: going through the songs
    [ss] from the running offset [off], with the audio files [au], appends
    the entries [es], performs the file accesses [evs] and leaves the
    running offset at [off']. *)
Inductive processed (au : gmap string audio_file) (resume : bool)
    (dir : string)
    : nat → list song → list timeline_entry → list event → nat → Prop :=
| processed_nil off :
    processed au resume dir off [] [] [] off
| processed_missing off off' s ss es evs :
    au !! audio_path_of dir s = None →
    processed au resume dir off ss es evs off' →
    processed au resume dir off (s :: ss)
      (missing_entry s off :: es)
      (Skipped (audio_path_of dir s) :: evs) off'
| processed_present off off' s ss es evs total_frames ev :
    is_Some (au !! audio_path_of dir s) →
    ev = Analyzed (audio_path_of dir s) (output_path_of s) ∨
    (resume = true ∧ ev = LoadedAnalysis (output_path_of s)) →
    processed au resume dir (off + total_frames) ss es evs off' →
    processed au resume dir off (s :: ss)
      (track_entry s off total_frames :: es) (ev :: evs) off'.

Definition frames_of_present (es : list timeline_entry) : nat :=
  sum_list (map e_totalFrames
              (filter (fun e => missing e = false) es)).

Record timeline_consistent (w : world) (dir : string) (sl : setlist)
    (tl : timeline) : Prop := TimelineConsistent {
  tc_order : map e_trackId (tracks tl) = map trackId (songs sl);
  tc_first : ∀ e, tracks tl !! 0 = Some e → globalFrameStart e = 0;
  tc_contiguous :
    ∀ i a b, tracks tl !! i = Some a → tracks tl !! (S i) = Some b →
             globalFrameStart b = globalFrameEnd a;
  tc_width :
    ∀ i e, tracks tl !! i = Some e →
           globalFrameEnd e = globalFrameStart e + e_totalFrames e;
  tc_missing :
    ∀ i s e, songs sl !! i = Some s → tracks tl !! i = Some e →
             missing e = negb (exists_audio w (audio_path_of dir s));
  tc_missing_empty :
    ∀ i e, tracks tl !! i = Some e → missing e = true →
           globalFrameStart e = globalFrameEnd e ∧ e_totalFrames e = 0;
  tc_last :
    ∀ e, last (tracks tl) = Some e → globalFrameEnd e = t_totalFrames tl;
  tc_total : t_totalFrames tl = frames_of_present (tracks tl)
}.


(** What a run shows of itself: the timeline and the file accesses. *)
Definition timeline_and_trace (r : result (timeline * world * list event))
    : result (timeline * list event) :=
  out <- r ;; Ok (fst (fst out), snd out).


(** *** Errors *)

Definition fails_with {A} (exn_class : string) (r : result A) : Prop :=
  ∃ e, r = Raise e ∧ exn_name e = exn_class.

End Spec.

(** ** Sample data *)
Module Samples.
Import analyze analyze_show.

(** A labelling in [k] blocks of consecutive windows. *)
Definition block_labelling : labelling :=
  fun k X => map (fun i => i * k / length X) (seq 0 (length X)).

(** What the extractors could return for a waveform of [n] samples: a
    few frames per stream, fewer than the frame grid asks for. *)
Definition sample_track (n : N) : extracted :=
  {| y_len := n;
     x_rms := [0; 1; 3 # 4]%Q;
     x_cent := [1; 2]%Q;
     x_onset := [5]%Q;
     x_tempo := 12037 # 100;
     x_beat_frames := [0; 15; 30];
     x_S := Array2 2 [[1; 2]; [3; 5]; [1; 1]]%Q;
     x_freqs := [50; 200; 300]%Q;
     x_chroma := Array2 1 (replicate 12 [1 # 3]%Q);
     x_contrast := Array2 2 (replicate 7 [2; 4]%Q);
     x_flatness := [1 # 7; 2 # 7]%Q;
     x_mfcc := Array2 2 (replicate 13 [1; 2]%Q) |}.

(** An audio directory with two decodable tracks (301 and 600 frames)
    and a file the decoder rejects; no analysis written yet. *)
Definition sample_world : world :=
  {| audio :=
       <["audio/gd77-05-08s2t08.mp3" := Decodes (sample_track 220600)]>
         (<["audio/gd77-05-08s2t09.mp3" := Decodes (sample_track 441000)]>
            (<["audio/broken.mp3" := Undecodable "NoBackendError"]> ∅));
     analyses := ∅ |}.

(** Three songs; the audio of the second one is absent. *)
Definition sample_setlist : setlist :=
  {| date := "1977-05-08";
     songs :=
       [ {| trackId := "s2t08"; title := "Morning Dew";
            audioFile := "gd77-05-08s2t08.mp3" |};
         {| trackId := "s2t07"; title := "St. Stephen";
            audioFile := "gd77-05-08s2t07.mp3" |};
         {| trackId := "s2t09"; title := "One More Saturday Night";
            audioFile := "gd77-05-08s2t09.mp3" |} ] |}.


(** A persisted analysis left by an earlier run. *)
Definition persisted_analysis : output :=
  {| o_meta := {| source := "gd77-05-08s2t07.mp3";
                  duration := 15;
                  fps := 30;
                  sr := SR;
                  hopLength := HOP_LENGTH;
                  totalFrames := 450;
                  tempo := 120;
                  m_sections := [] |};
     o_frames := [] |}.

(** The sample audio directory, with persisted analyses of the second
    and third songs of [sample_setlist]. *)
Definition resumed_world : world :=
  {| audio := audio sample_world;
     analyses :=
       <["data/tracks/s2t07-analysis.json" := persisted_analysis]>
         (<["data/tracks/s2t09-analysis.json" := persisted_analysis]> ∅) |}.

End Samples.

(** ** analyze_show.py: command line and audio directory (lines 36-56) *)
Module analyze_show_args.

(** [arg.split("=", 1)]: the text before the first [=] and, when there is
    one, the text after it. *)
Fixpoint split_eq (arg : string) : list string :=
  match arg with
  | EmptyString => [EmptyString]
  | String c r =>
      if bool_decide (c = "="%char) then [EmptyString; r]
      else match split_eq r with
           | before :: after => String c before :: after
           | [] => [String c EmptyString]
           end
  end.

(** One iteration of [for arg in sys.argv[1:]]; the directory is kept as
    the text handed to [Path]. *)
Definition parse_step (cli_audio_dir : option string) (arg : string)
    : result (option string) :=
  if String.prefix "--audio-dir=" arg then
    text <- getitem (split_eq arg) 1 ;;
    Ok (Some text)
  else Ok cli_audio_dir.

Fixpoint parse_audio_dir (args : list string) (cli_audio_dir : option string)
    : result (option string) :=
  match args with
  | [] => Ok cli_audio_dir
  | arg :: args' =>
      cli_audio_dir' <- parse_step cli_audio_dir arg ;;
      parse_audio_dir args' cli_audio_dir'
  end.

Record arguments : Type := Arguments_ {
  resume : bool;
  cli_audio_dir : option string
}.

Definition parse_argv (argv : list string) : result arguments :=
  dir <- parse_audio_dir (drop 1 argv) None ;;
  Ok {| resume := bool_decide ("--resume" ∈ argv); cli_audio_dir := dir |}.

(** Where the audio is looked for: a path given as text, a path under the
    data directory of the scripts, or their public audio directory. *)
Inductive audio_location : Type :=
| Given (text : string)
| UnderDataDir (text : string)
| PublicAudioDir.

(** [Path(text).is_absolute()] on a POSIX system. *)
Definition is_absolute (text : string) : bool := String.prefix "/" text.

(** Lines 48-56.  A [Path] is always true in a condition, so the first
    branch is taken whenever an [--audio-dir=] argument was seen. *)
Definition resolve_audio_dir (cli_audio_dir setlist_audioDir : option string)
    : audio_location :=
  match cli_audio_dir with
  | Some text => Given text
  | None =>
      match setlist_audioDir with
      | Some text => if is_absolute text then Given text else UnderDataDir text
      | None => PublicAudioDir
      end
  end.

End analyze_show_args.

(** ** pipeline/scripts/analyze_audio.py *)
Module analyze_audio.

Definition major_profile : list Q :=
  [635 # 100; 223 # 100; 348 # 100; 233 # 100; 438 # 100; 409 # 100;
   252 # 100; 519 # 100; 239 # 100; 366 # 100; 229 # 100; 288 # 100]%Q.

Definition minor_profile : list Q :=
  [633 # 100; 268 # 100; 352 # 100; 538 # 100; 260 # 100; 353 # 100;
   254 # 100; 475 # 100; 398 # 100; 269 # 100; 334 # 100; 317 # 100]%Q.

Definition note_names : list string :=
  ["C"; "C#"; "D"; "D#"; "E"; "F"; "F#"; "G"; "G#"; "A"; "A#"; "B"].

(** The coefficient numpy computes for two vectors of one length is not
    part of the repository: an arbitrary function, [None] standing for
    [nan] (the coefficient of a constant vector). *)
Definition correlation : Type := list Q -> list Q -> option Q.

(** [float(np.corrcoef(x, y)[0, 1])]: numpy refuses two vectors of
    different lengths. *)
Definition corrcoef (corr : correlation) (x y : list Q)
    : result (option Q) :=
  if bool_decide (length x = length y) then Ok (corr x y)
  else Raise ValueError.

(** [np.roll(v, -i)]: element [k] of the result is element [k + i] of [v],
    indices taken modulo the length. *)
Definition roll_back (v : list Q) (i : nat) : list Q := rotate i v.

Record best : Type := Best {
  best_corr : Q;
  best_key : string
}.

(** [if corr > best_corr: best_corr = corr; best_key = f"{note_names[i]}
    mode"]; a comparison with [nan] is false. *)
Definition improve (st : best) (corr : option Q) (i : nat) (mode : string)
    : result best :=
  match corr with
  | Some c =>
      if Qltb (best_corr st) c then
        name <- getitem note_names i ;;
        Ok {| best_corr := c; best_key := name +:+ " " +:+ mode |}
      else Ok st
  | None => Ok st
  end.

(** The body of the loop, lines 30-38. *)
Definition key_step (corr : correlation) (chroma_vector : list Q)
    (st : best) (i : nat) : result best :=
  let rotated := roll_back chroma_vector i in
  corr_major <- corrcoef corr rotated major_profile ;;
  corr_minor <- corrcoef corr rotated minor_profile ;;
  st' <- improve st corr_major i "major" ;;
  improve st' corr_minor i "minor".

Fixpoint key_loop (corr : correlation) (chroma_vector : list Q)
    (range : list nat) (st : best) : result best :=
  match range with
  | [] => Ok st
  | i :: range' =>
      st' <- key_step corr chroma_vector st i ;;
      key_loop corr chroma_vector range' st'
  end.

Definition estimate_key (corr : correlation) (chroma_vector : list Q)
    : result string :=
  st <- key_loop corr chroma_vector (seq 0 12)
          {| best_corr := -2; best_key := "C major" |} ;;
  Ok (best_key st).

(** The parsed configuration.  [analyze] reads [config["audioPath"]]
    first; the record stands for a configuration that has this key. *)
Record config : Type := Config {
  audioPath : string;
  sampleRate : option Z;
  hopLength : option Z;
  analyses : option (list string)
}.

(** What librosa computes for a file at a sampling rate and hop length:
    the duration, the sampling rate it returns, and the outputs of the five
    extractors. *)
Record loaded : Type := Loaded {
  l_duration : Q;
  l_sr : positive;
  l_rms : list Q;
  l_tempo : list Q;
  l_cent : list Q;
  l_onset_times : list Q;
  l_chroma_mean : list Q
}.

Definition librosa : Type := string -> Z -> Z -> result loaded.

Record analysis : Type := Analysis {
  ok : bool;
  durationSec : Q;
  energy : option (list Q);
  tempo : option (list Q);
  spectralCentroid : option (list Q);
  onsets : option (list Q);
  key : option string
}.

Definition requested_of (config : config) : list string :=
  default ["energy"; "tempo"; "spectral"; "onsets"; "key"] (analyses config).

(** Lines 55-81, on what librosa returned. *)
Definition analyze_loaded (corr : correlation) (requested : list string)
    (x : loaded) : result analysis :=
  energy <- (if bool_decide ("energy" ∈ requested) then
               let rms := l_rms x in
               mx <- analyze.arr_max rms ;;
               let max_rms := if Qltb 0 mx then mx else 1%Q in
               Ok (Some (map (fun v => pyround (v / max_rms) 4) rms))
             else Ok None) ;;
  let tempo :=
    if bool_decide ("tempo" ∈ requested)
    then Some (map (fun t => pyround t 1) (l_tempo x)) else None in
  let spectral :=
    if bool_decide ("spectral" ∈ requested)
    then let nyquist := (inject_Z (Zpos (l_sr x)) / 2)%Q in
         Some (map (fun v => pyround (v / nyquist) 4) (l_cent x))
    else None in
  let onsets :=
    if bool_decide ("onsets" ∈ requested)
    then Some (map (fun t => pyround t 3) (l_onset_times x)) else None in
  key <- (if bool_decide ("key" ∈ requested) then
            k <- estimate_key corr (l_chroma_mean x) ;;
            Ok (Some k)
          else Ok None) ;;
  Ok {| ok := true;
        durationSec := pyround (l_duration x) 2;
        energy := energy;
        tempo := tempo;
        spectralCentroid := spectral;
        onsets := onsets;
        key := key |}.

Definition analyze (load : librosa) (corr : correlation) (config : config)
    : result analysis :=
  let path := audioPath config in
  let sr := default 22050%Z (sampleRate config) in
  let hop := default 2205%Z (hopLength config) in
  x <- load path sr hop ;;
  analyze_loaded corr (requested_of config) x.

End analyze_audio.

(** ** pipeline/scripts/align_lyrics.py *)
Module align_lyrics.

(** A word and a segment as WhisperX returns them; every key may be
    absent. *)
Record aligned_word : Type := AlignedWord {
  w_word : option string;
  w_start : option Q;
  w_end : option Q;
  w_score : option Q
}.

Record aligned_segment : Type := AlignedSegment {
  s_start : option Q;
  s_end : option Q;
  s_text : option string;
  s_words : option (list aligned_word)
}.

Record word_entry : Type := WordEntry {
  word : string;
  start : Q;
  end_ : Q;
  score : option Q
}.

Record segment_entry : Type := SegmentEntry {
  seg_start : Q;
  seg_end : Q;
  text : string
}.

Record alignment : Type := Alignment {
  ok : bool;
  words : list word_entry;
  segments : list segment_entry
}.

Section Align.

(** [str.strip] *)
Variable strip : string -> string.

(** Lines 49-55. *)
Definition entry_of (w : aligned_word) : word_entry :=
  {| word := strip (default "" (w_word w));
     start := pyround (default 0%Q (w_start w)) 3;
     end_ := pyround (default 0%Q (w_end w)) 3;
     score := (fun s => pyround s 3) <$> w_score w |}.

(** The inner loop, lines 48-57. *)
Fixpoint words_loop (ws : list aligned_word) (words : list word_entry)
    : list word_entry :=
  match ws with
  | [] => words
  | w :: ws' =>
      let word_entry := entry_of w in
      words_loop ws'
        (if bool_decide (word word_entry = "") then words
         else words ++ [word_entry])
  end.

(** The outer loop, lines 47-57. *)
Fixpoint segments_words (segs : list aligned_segment)
    (words : list word_entry) : list word_entry :=
  match segs with
  | [] => words
  | seg :: segs' =>
      segments_words segs' (words_loop (default [] (s_words seg)) words)
  end.

(** Lines 60-66. *)
Fixpoint segments_loop (segs : list aligned_segment)
    (segments : list segment_entry) : list segment_entry :=
  match segs with
  | [] => segments
  | seg :: segs' =>
      segments_loop segs'
        (segments ++ [{| seg_start := pyround (default 0%Q (s_start seg)) 3;
                         seg_end := pyround (default 0%Q (s_end seg)) 3;
                         text := strip (default "" (s_text seg)) |}])
  end.

(** Lines 45-68, on the value [aligned["segments"]] returned by WhisperX
    ([None] when the key is absent). *)
Definition align (aligned_segments : option (list aligned_segment))
    : alignment :=
  let segs := default [] aligned_segments in
  {| ok := true;
     words := segments_words segs [];
     segments := segments_loop segs [] |}.

End Align.

End align_lyrics.

(** ** Further vocabulary *)
Module Props.
Import analyze analyze_show.

Definition unit_interval (v : Q) : Prop := (0 <= v <= 1)%Q.

(** The normalised features of a frame: the eight scalars and the seven
    contrast entries.  Chroma is not normalised by the pipeline. *)
Record frame_in_range (f : frame) : Prop := FrameInRange {
  fr_rms : unit_interval (f_rms f);
  fr_centroid : unit_interval (f_centroid f);
  fr_onset : unit_interval (f_onset f);
  fr_sub : unit_interval (f_sub f);
  fr_low : unit_interval (f_low f);
  fr_mid : unit_interval (f_mid f);
  fr_high : unit_interval (f_high f);
  fr_flatness : unit_interval (f_flatness f);
  fr_contrast : Forall unit_interval (f_contrast f)
}.

Definition tier_rank (t : tier) : nat :=
  match t with low => 0 | mid => 1 | high => 2 end.

(** Number of positions where a label differs from the one before. *)
Fixpoint changes (labels : list nat) : nat :=
  match labels with
  | a :: rest =>
      match rest with
      | b :: _ => (if a =? b then 0 else 1) + changes rest
      | [] => 0
      end
  | [] => 0
  end.

(** [s] carries the tier and the rounded mean of the normalised RMS over
    its own frame range. *)
Definition section_from_rms (rms_norm : list Q) (s : section) : Prop :=
  energy s
    = energy_label_of (avg_energy_of rms_norm (frameStart s) (frameEnd s)) ∧
  avgEnergy s
    = pyround (avg_energy_of rms_norm (frameStart s) (frameEnd s)) 3.

(** The tier read off the stored [avgEnergy] with the thresholds 0.5 and
    0.25, up to the thresholds themselves. *)
Definition tier_agrees (s : section) : Prop :=
  ((1 # 2 < avgEnergy s)%Q → energy s = high) ∧
  (energy s = high → (1 # 2 <= avgEnergy s)%Q) ∧
  ((1 # 4 < avgEnergy s)%Q → energy s ≠ low) ∧
  (energy s = low → (avgEnergy s <= 1 # 4)%Q).

(** [s] starts on a window boundary and spans at least one window. *)
Definition spans_windows (s : section) : Prop :=
  (seg_hop | frameStart s) ∧ frameStart s + seg_hop ≤ frameEnd s.

(** The labels are the positions. *)
Definition labelled_by_position (secs : list section) : Prop :=
  ∀ i s, secs !! i = Some s → label s = "section_" +:+ str_of_nat i.



(** The durations persisted for the songs whose audio exists, in setlist
    order. *)
(** The 24 keys in the order in which [estimate_key] tries them, each with
    the coefficient it is given. *)
Definition key_candidates (corr : analyze_audio.correlation)
    (chroma_vector : list Q) : list (string * option Q) :=
  flat_map
    (fun i =>
       let rotated := analyze_audio.roll_back chroma_vector i in
       let name := nth i analyze_audio.note_names "" in
       [(name +:+ " major", corr rotated analyze_audio.major_profile);
        (name +:+ " minor", corr rotated analyze_audio.minor_profile)])
    (seq 0 12).

(** [st'] is what a scan for the first largest coefficient, started in
    [st], holds after the candidates [cs]. *)
Definition scanned (st : analyze_audio.best) (cs : list (string * option Q))
    (st' : analyze_audio.best) : Prop :=
  (analyze_audio.best_corr st <= analyze_audio.best_corr st')%Q ∧
  (∀ k c, (k, Some c) ∈ cs → (c <= analyze_audio.best_corr st')%Q) ∧
  (st' = st ∨
   ∃ j, cs !! j = Some (analyze_audio.best_key st',
                        Some (analyze_audio.best_corr st')) ∧
        (analyze_audio.best_corr st < analyze_audio.best_corr st')%Q ∧
        ∀ j' k c, j' < j → cs !! j' = Some (k, Some c) →
                  (c < analyze_audio.best_corr st')%Q).

(** The words WhisperX returned, in order. *)
Definition all_words (segs : list align_lyrics.aligned_segment)
    : list align_lyrics.aligned_word :=
  flat_map (fun seg => default [] (align_lyrics.s_words seg)) segs.


End Props.

(** ** Further sample data *)
Module MoreSamples.
Import analyze analyze_show Samples.


End MoreSamples.

(** * Properties *)

Import analyze analyze_show Spec Samples.

(** ** The model on small inputs *)

Example pad_or_trim_longer : pad_or_trim [1; 2; 3] 2 = Ok [1; 2].
Proof. reflexivity. Qed.

Example pad_or_trim_shorter : pad_or_trim [1; 2; 3] 5 = Ok [1; 2; 3; 3; 3].
Proof. reflexivity. Qed.

Example pad_or_trim_empty : pad_or_trim (@nil nat) 2 = Raise ValueError.
Proof. reflexivity. Qed.

Example normalize_three : normalize [1; 3; 2]%Q = Ok [0 # 2; 2 # 2; 1 # 2]%Q.
Proof. reflexivity. Qed.

Example normalize_flat : normalize [3; 3]%Q = Ok [0; 0]%Q.
Proof. reflexivity. Qed.

Example normalize_empty : normalize [] = Raise ValueError.
Proof. reflexivity. Qed.

Example pyround_ties_to_even :
  pyround (5 # 2) 0 = 2%Q ∧ pyround (7 # 2) 0 = 4%Q.
Proof. split; reflexivity. Qed.

Example energy_tiers :
  map energy_label_of [6 # 10; 5 # 10; 3 # 10; 25 # 100; 1 # 10]%Q
  = [high; mid; mid; low; low].
Proof. reflexivity. Qed.

Example n_clusters_table :
  map n_clusters_of [1; 2; 3; 4; 15; 16; 47; 48; 100]
  = [2; 2; 2; 3; 3; 4; 11; 12; 12].
Proof. reflexivity. Qed.

(** ** Numeric helpers *)

Lemma Qltb_true (x y : Q) : Qltb x y = true ↔ (x < y)%Q.
Proof.
  unfold Qltb. rewrite negb_true_iff.
  split.
  - intros H. apply Qnot_le_lt. intros Hle.
    apply Qle_bool_iff in Hle. congruence.
  - intros H. destruct (Qle_bool y x) eqn:E; [|reflexivity].
    apply Qle_bool_iff in E. exfalso. apply (Qlt_not_le _ _ H E).
Qed.

Lemma Qltb_false (x y : Q) : Qltb x y = false ↔ (y <= x)%Q.
Proof.
  unfold Qltb. rewrite negb_false_iff. apply Qle_bool_iff.
Qed.

Lemma fold_Qmin_le (r : list Q) (x : Q) :
  (fold_left Qmin r x <= x)%Q ∧ Forall (fun y => (fold_left Qmin r x <= y)%Q) r.
Proof.
  revert x. induction r as [|y r IH]; intros x; simpl.
  - split; [apply Qle_refl | constructor].
  - destruct (IH (Qmin x y)) as [H1 H2]. split.
    + eapply Qle_trans; [exact H1 | apply Q.le_min_l].
    + constructor; [|exact H2].
      eapply Qle_trans; [exact H1 | apply Q.le_min_r].
Qed.

Lemma fold_Qmax_ge (r : list Q) (x : Q) :
  (x <= fold_left Qmax r x)%Q ∧ Forall (fun y => (y <= fold_left Qmax r x)%Q) r.
Proof.
  revert x. induction r as [|y r IH]; intros x; simpl.
  - split; [apply Qle_refl | constructor].
  - destruct (IH (Qmax x y)) as [H1 H2]. split.
    + eapply Qle_trans; [apply Q.le_max_l | exact H1].
    + constructor; [|exact H2].
      eapply Qle_trans; [apply Q.le_max_r | exact H1].
Qed.


Lemma fold_Qmax_elem (r : list Q) (x : Q) : fold_left Qmax r x ∈ x :: r.
Proof.
  revert x. induction r as [|y r IH]; intros x; simpl.
  - left.
  - specialize (IH (Qmax x y)).
    apply elem_of_cons in IH as [IH | IH].
    + rewrite IH. unfold Qmax, GenericMinMax.gmax.
      destruct (x ?= y)%Q; first [left | right; left].
    + right. right. exact IH.
Qed.

Lemma epsilon_pos : (0 < epsilon)%Q.
Proof. reflexivity. Qed.

Lemma unit_interval_div (x mn mx : Q) :
  (mn <= x)%Q → (x <= mx)%Q → (0 < mx - mn)%Q →
  (0 <= (x - mn) / (mx - mn) <= 1)%Q.
Proof.
  intros H1 H2 Hd. split.
  - apply Qle_shift_div_l; [exact Hd | lra].
  - apply Qle_shift_div_r; [exact Hd | lra].
Qed.

Lemma normalize_length (arr out : list Q) :
  normalize arr = Ok out → length out = length arr.
Proof.
  unfold normalize. destruct arr as [|x r]; [discriminate|].
  unfold arr_min, arr_max, bind.
  destruct (Qltb _ _); intros [= <-];
    unfold zeros_like; simpl; rewrite length_map; reflexivity.
Qed.





(** ** Target cluster count *)

Lemma n_clusters_of_bounds (n_segs : nat) :
  2 ≤ n_clusters_of n_segs ≤ 12.
Proof.
  unfold n_clusters_of.
  destruct (Nat.leb_spec n_segs (Nat.min (Nat.max 3 (n_segs / 4)) 12)); lia.
Qed.

Lemma n_clusters_of_le (n_segs : nat) :
  2 ≤ n_segs → n_clusters_of n_segs ≤ n_segs.
Proof.
  intros H. unfold n_clusters_of.
  destruct (Nat.leb_spec n_segs (Nat.min (Nat.max 3 (n_segs / 4)) 12)); lia.
Qed.

(** C5, as the code has it.  The target is
    [clamp(floor(numWindows / 4), 3, 12)], with floor division where the
    specification rounds, and it is replaced by [max(2, numWindows - 1)]
    when the number of windows is at most the target, not only when it is
    below it.  In closed form: 2 up to three windows, 3 from four to fifteen,
    [floor(numWindows / 4)] from sixteen to forty-seven, 12 from there on. *)
Theorem n_clusters_floor_clamp (numWindows : nat) :
  1 ≤ numWindows →
  let target := clamp (numWindows / 4) 3 12 in
  n_clusters_of numWindows =
    (if numWindows <=? target then Nat.max 2 (numWindows - 1) else target) ∧
  (numWindows ≤ 3 → n_clusters_of numWindows = 2) ∧
  (4 ≤ numWindows ≤ 15 → n_clusters_of numWindows = 3) ∧
  (16 ≤ numWindows ≤ 47 → n_clusters_of numWindows = numWindows / 4) ∧
  (48 ≤ numWindows → n_clusters_of numWindows = 12).
Proof.
  intros H1 target. subst target. unfold n_clusters_of, clamp.
  assert (Hdiv : numWindows / 4 * 4 ≤ numWindows < numWindows / 4 * 4 + 4).
  { pose proof (Nat.div_mod_eq numWindows 4).
    pose proof (Nat.mod_upper_bound numWindows 4). lia. }
  split_and!.
  - rewrite (Nat.max_comm 3). reflexivity.
  - intros H. destruct (Nat.leb_spec numWindows
                          (Nat.min (Nat.max 3 (numWindows / 4)) 12)); lia.
  - intros H. destruct (Nat.leb_spec numWindows
                          (Nat.min (Nat.max 3 (numWindows / 4)) 12)); lia.
  - intros H. destruct (Nat.leb_spec numWindows
                          (Nat.min (Nat.max 3 (numWindows / 4)) 12)); lia.
  - intros H. destruct (Nat.leb_spec numWindows
                          (Nat.min (Nat.max 3 (numWindows / 4)) 12)); lia.
Qed.

Lemma n_clusters_floor_clamp_witness :
  let target := clamp (15 / 4) 3 12 in
  n_clusters_of 15 =
    (if 15 <=? target then Nat.max 2 (15 - 1) else target) ∧
  (15 ≤ 3 → n_clusters_of 15 = 2) ∧
  (4 ≤ 15 ≤ 15 → n_clusters_of 15 = 3) ∧
  (16 ≤ 15 ≤ 47 → n_clusters_of 15 = 15 / 4) ∧
  (48 ≤ 15 → n_clusters_of 15 = 12).
Proof.
  apply (n_clusters_floor_clamp 15). lia.
Defined.

(** C5 as the specification words it fails: fifteen windows give
    [15 / 4 = 3.75], which rounds to 4 but floors to 3; and three windows are
    not fewer than the target 3, yet the code reduces the count to 2. *)
Lemma n_clusters_round_counterexample :
  n_clusters_of 15 = 3 ∧ spec_target_clusters 15 = 4 ∧
  n_clusters_of 3 = 2 ∧ spec_target_clusters 3 = 3 ∧
  ¬ (∀ numWindows, 1 ≤ numWindows →
       n_clusters_of numWindows = spec_target_clusters numWindows).
Proof.
  split_and!; try reflexivity.
  intros H. specialize (H 15 ltac:(lia)). vm_compute in H. discriminate.
Qed.
(** ** Section detection *)

Lemma chain_app (a b c : nat) (l1 l2 : list section) :
  chain a l1 b → chain b l2 c → chain a (l1 ++ l2) c.
Proof.
  revert a. induction l1 as [|s l1 IH]; simpl; intros a H1 H2.
  - subst. exact H2.
  - destruct H1 as (Hs & Hle & Hr). split_and!; [exact Hs | exact Hle |].
    apply IH; assumption.
Qed.

Lemma chain_close (rms_norm : list Q) (secs : list section) (a fs fe : nat) :
  chain a secs fs → fs ≤ fe → chain a (close_section rms_norm secs fs fe) fe.
Proof.
  intros Hc Hle. unfold close_section.
  eapply chain_app; [exact Hc|]. simpl. auto.
Qed.

Lemma chain_le (a b : nat) (secs : list section) : chain a secs b → a ≤ b.
Proof.
  revert a. induction secs as [|s secs IH]; simpl; intros a H.
  - lia.
  - destruct H as (_ & Hle & Hr). apply IH in Hr. lia.
Qed.

Lemma chain_lookup (a b : nat) (secs : list section) (i : nat) (s : section) :
  chain a secs b → secs !! i = Some s →
  a ≤ frameStart s ∧ frameStart s ≤ frameEnd s ∧ frameEnd s ≤ b.
Proof.
  revert a i. induction secs as [|s0 secs IH]; intros a i Hc Hi.
  - discriminate.
  - destruct Hc as (Hs & Hle & Hr). destruct i as [|i]; simpl in Hi.
    + injection Hi as <-. apply chain_le in Hr. lia.
    + destruct (IH _ _ Hr Hi) as (H1 & H2 & H3). lia.
Qed.

Lemma chain_contiguous (a b : nat) (secs : list section) (i : nat)
    (s t : section) :
  chain a secs b → secs !! i = Some s → secs !! (S i) = Some t →
  frameStart t = frameEnd s.
Proof.
  revert a i. induction secs as [|s0 secs IH]; intros a i Hc Hi Hj.
  - discriminate.
  - destruct Hc as (Hs & Hle & Hr). destruct i as [|i]; simpl in Hi, Hj.
    + injection Hi as <-. destruct secs as [|t0 secs]; [discriminate|].
      simpl in Hj. injection Hj as <-. destruct Hr as (Ht & _). exact Ht.
    + eapply IH; eassumption.
Qed.

Lemma chain_ordered (a b : nat) (secs : list section) (i j : nat)
    (s t : section) :
  chain a secs b → i ≤ j → secs !! i = Some s → secs !! j = Some t →
  frameStart s ≤ frameStart t.
Proof.
  revert a i j. induction secs as [|s0 secs IH]; intros a i j Hc Hij Hi Hj.
  - discriminate.
  - destruct Hc as (Hs & Hle & Hr). destruct i as [|i]; simpl in Hi.
    + injection Hi as <-. destruct j as [|j]; simpl in Hj.
      * injection Hj as <-. lia.
      * destruct (chain_lookup _ _ _ _ _ Hr Hj). lia.
    + destruct j as [|j]; [lia|]. simpl in Hj.
      eapply (IH _ i j); [exact Hr | lia | exact Hi | exact Hj].
Qed.

Lemma chain_last (a b : nat) (secs : list section) :
  chain a secs b → secs ≠ [] → ∃ s, last secs = Some s ∧ frameEnd s = b.
Proof.
  revert a. induction secs as [|s0 secs IH]; intros a Hc Hne; [congruence|].
  destruct Hc as (Hs & Hle & Hr). destruct secs as [|s1 secs].
  - simpl in Hr. exists s0. split; [reflexivity | exact Hr].
  - destruct (IH _ Hr) as (s & Hl & He); [discriminate|].
    exists s. split; [exact Hl | exact He].
Qed.

Lemma chain_unique (a b : nat) (secs : list section) (f : nat) :
  chain a secs b → a ≤ f < b →
  ∃ i s, secs !! i = Some s ∧ contains s f ∧
         ∀ j t, secs !! j = Some t → contains t f → j = i.
Proof.
  revert a. induction secs as [|s0 secs IH]; intros a Hc Hf.
  - simpl in Hc. lia.
  - destruct Hc as (Hs & Hle & Hr).
    destruct (Nat.lt_ge_cases f (frameEnd s0)) as [Hlt | Hge].
    + exists 0, s0. split_and!; [reflexivity | split; lia |].
      intros j t Hj Ht. destruct j as [|j]; [reflexivity|]. simpl in Hj.
      destruct (chain_lookup _ _ _ _ _ Hr Hj) as (H1 & _).
      destruct Ht. lia.
    + destruct (IH _ Hr) as (i & s & Hi & Hc & Hu); [lia|].
      exists (S i), s. split_and!; [exact Hi | exact Hc |].
      intros j t Hj Ht. destruct j as [|j].
      * simpl in Hj. injection Hj as <-. destruct Ht. lia.
      * f_equal. eapply Hu; eassumption.
Qed.

Lemma chain_exact_cover (secs : list section) (total : nat) :
  chain 0 secs total → secs ≠ [] → exact_cover secs total.
Proof.
  intros Hc Hne. constructor.
  - destruct secs as [|s secs]; [congruence|].
    exists s. destruct Hc as (Hs & _). split; [reflexivity | exact Hs].
  - eapply chain_last; eassumption.
  - intros i s t. eapply chain_contiguous; eassumption.
  - intros i j s t. eapply chain_ordered; eassumption.
  - intros f Hf. eapply chain_unique; [eassumption | lia].
Qed.

Lemma close_section_nonempty (rms_norm : list Q) (secs : list section)
    (fs fe : nat) : close_section rms_norm secs fs fe ≠ [].
Proof. unfold close_section. destruct secs; discriminate. Qed.

(** The loop keeps the sections closed so far chained from frame 0 up to
    the start of the open one, as long as every window index it meets
    starts within the track. *)
Lemma merge_loop_chain (n_frames : nat) (rms_norm : list Q) (rest : list nat) :
  ∀ (i : nat) (st : merge_state),
    chain 0 (sections st) (section_start st * seg_hop) →
    section_start st < i →
    (i + length rest - 1) * seg_hop ≤ n_frames →
    let st' := merge_loop n_frames rms_norm rest i st in
    chain 0 (sections st') (section_start st' * seg_hop) ∧
    section_start st' < i + length rest.
Proof.
  induction rest as [|l rest IH]; intros i st Hc Hlt Hb; simpl.
  - split; [exact Hc | lia].
  - simpl in Hb.
    assert (Hi : i * seg_hop ≤ n_frames).
    { etransitivity; [|exact Hb]. apply Nat.mul_le_mono_r. lia. }
    specialize (IH (S i) (merge_step n_frames rms_norm st i l)).
    replace (i + S (length rest)) with (S i + length rest) by lia.
    apply IH.
    + unfold merge_step. destruct (negb (l =? current_label st)); [|exact Hc].
      simpl. rewrite Nat.min_l by exact Hi.
      apply chain_close; [exact Hc|]. apply Nat.mul_le_mono_r. lia.
    + unfold merge_step. destruct (negb (l =? current_label st)); simpl; lia.
    + etransitivity; [|exact Hb]. apply Nat.mul_le_mono_r. lia.
Qed.

Lemma merge_labels_chain (n_frames : nat) (rms_norm : list Q)
    (labels : list nat) :
  1 ≤ length labels → (length labels - 1) * seg_hop ≤ n_frames →
  ∃ secs, merge_labels n_frames rms_norm labels = Ok secs ∧
          chain 0 secs n_frames ∧ secs ≠ [].
Proof.
  intros Hlen Hb. destruct labels as [|l0 rest]; [simpl in Hlen; lia|].
  unfold merge_labels, getitem. simpl. rewrite drop_0.
  set (st0 := {| sections := []; current_label := l0; section_start := 0 |}).
  destruct (merge_loop_chain n_frames rms_norm rest 1 st0) as [Hc Hs].
  - reflexivity.
  - simpl. lia.
  - simpl in Hb. etransitivity; [|exact Hb]. apply Nat.mul_le_mono_r. lia.
  - eexists. split_and!; [reflexivity | | apply close_section_nonempty].
    apply chain_close; [exact Hc|].
    etransitivity; [|exact Hb]. apply Nat.mul_le_mono_r. simpl. lia.
Qed.

Lemma n_segs_of_fits (n_frames : nat) :
  1 ≤ n_segs_of n_frames ∧ (n_segs_of n_frames - 1) * seg_hop ≤ n_frames.
Proof.
  unfold n_segs_of.
  pose proof (Nat.div_mod_eq n_frames seg_hop) as Hd.
  assert (Hpos : seg_hop = 150) by reflexivity.
  destruct (Nat.max_spec 1 (n_frames / seg_hop)) as [[H1 ->] | [H1 ->]]; lia.
Qed.

Lemma n_segs_of_two (n_frames : nat) :
  2 * seg_hop ≤ n_frames ↔ 2 ≤ n_segs_of n_frames.
Proof.
  unfold n_segs_of. assert (Hpos : seg_hop = 150) by reflexivity.
  rewrite Hpos.
  pose proof (Nat.div_mod_eq n_frames 150) as Hd.
  pose proof (Nat.mod_upper_bound n_frames 150).
  lia.
Qed.

Lemma seg_features_length (mfcc : array2) (n_segs : nat) :
  length (seg_features_of mfcc n_segs) = n_segs.
Proof. unfold seg_features_of. rewrite length_map. apply length_seq. Qed.

Lemma detect_sections_ok (lab : labelling) (mfcc : array2) (n_frames : nat)
    (rms_norm : list Q) :
  (∀ k X, length (lab k X) = length X) →
  2 * seg_hop ≤ n_frames →
  ∃ secs, detect_sections lab mfcc n_frames rms_norm = Ok secs.
Proof.
  intros Hlab H2. apply n_segs_of_two in H2.
  unfold detect_sections, fit_predict. rewrite seg_features_length.
  pose proof (n_clusters_of_le _ H2) as Hk.
  destruct (Nat.ltb_spec (n_segs_of n_frames) 2); [lia|].
  destruct (Nat.ltb_spec (n_segs_of n_frames)
              (n_clusters_of (n_segs_of n_frames))); [lia|].
  simpl.
  destruct (merge_labels_chain n_frames rms_norm
              (lab (n_clusters_of (n_segs_of n_frames))
                   (seg_features_of mfcc (n_segs_of n_frames))))
    as (secs & Hs & _).
  - rewrite Hlab, seg_features_length. lia.
  - rewrite Hlab, seg_features_length. apply n_segs_of_fits.
  - exists secs. exact Hs.
Qed.

Lemma detect_sections_chain (lab : labelling) (mfcc : array2) (n_frames : nat)
    (rms_norm : list Q) (secs : list section) :
  (∀ k X, length (lab k X) = length X) →
  detect_sections lab mfcc n_frames rms_norm = Ok secs →
  chain 0 secs n_frames ∧ secs ≠ [].
Proof.
  intros Hlab. unfold detect_sections, fit_predict.
  destruct (_ || _); [discriminate|]. simpl. intros Hm.
  destruct (merge_labels_chain n_frames rms_norm
              (lab (n_clusters_of (n_segs_of n_frames))
                   (seg_features_of mfcc (n_segs_of n_frames))))
    as (secs' & Hs & Hc & Hne).
  - rewrite Hlab, seg_features_length. apply n_segs_of_fits.
  - rewrite Hlab, seg_features_length. apply n_segs_of_fits.
  - rewrite Hs in Hm. injection Hm as <-. split; assumption.
Qed.

(** C2.  Whatever labelling the clustering step returns (one label per
    coarse window), the sections that section detection returns are ordered
    by [frameStart], start at frame 0, are contiguous, end at the track's
    frame count and contain every frame of the track exactly once; and
    section detection does return for every track of at least two coarse
    windows. *)
Theorem detect_sections_exact_cover (lab : labelling) (mfcc : array2)
    (n_frames : nat) (rms_norm : list Q) :
  (∀ k X, length (lab k X) = length X) →
  (2 * seg_hop ≤ n_frames →
     ∃ secs, detect_sections lab mfcc n_frames rms_norm = Ok secs) ∧
  (∀ secs, detect_sections lab mfcc n_frames rms_norm = Ok secs →
           exact_cover secs n_frames).
Proof.
  intros Hlab. split.
  - intros H2. apply detect_sections_ok; assumption.
  - intros secs Hs.
    destruct (detect_sections_chain _ _ _ _ _ Hlab Hs) as [Hc Hne].
    apply chain_exact_cover; assumption.
Qed.

Lemma block_labelling_length (k : nat) (X : list (list Q)) :
  length (block_labelling k X) = length X.
Proof. unfold block_labelling. rewrite length_map. apply length_seq. Qed.

Lemma detect_sections_exact_cover_witness :
  (2 * seg_hop ≤ 450 →
     ∃ secs, detect_sections block_labelling (x_mfcc (sample_track 0)) 450
               [0; 1]%Q = Ok secs) ∧
  (∀ secs, detect_sections block_labelling (x_mfcc (sample_track 0)) 450
             [0; 1]%Q = Ok secs →
           exact_cover secs 450).
Proof.
  apply (detect_sections_exact_cover block_labelling
           (x_mfcc (sample_track 0)) 450 [0; 1]%Q).
  intros k X. unfold block_labelling. rewrite length_map. apply length_seq.
Defined.

(** C4.  A track of fewer than [2 * 150] frames has a single coarse
    window; the code then asks for 2 clusters of that one window, which the
    clustering step rejects, so section detection raises instead of
    returning one section.  The merging loop itself, given the single label,
    would return the section [[0, n_frames)]. *)
Theorem single_window_detection_raises (lab : labelling) (mfcc : array2)
    (n_frames : nat) (rms_norm : list Q) :
  n_frames < 2 * seg_hop →
  n_segs_of n_frames = 1 ∧
  n_clusters_of (n_segs_of n_frames) = 2 ∧
  detect_sections lab mfcc n_frames rms_norm = Raise ValueError ∧
  (∀ l, ∃ s, merge_labels n_frames rms_norm [l] = Ok [s] ∧
             frameStart s = 0 ∧ frameEnd s = n_frames).
Proof.
  intros H.
  assert (H1 : n_segs_of n_frames = 1).
  { pose proof (n_segs_of_two n_frames). pose proof (n_segs_of_fits n_frames).
    lia. }
  split_and!.
  - exact H1.
  - rewrite H1. reflexivity.
  - unfold detect_sections, fit_predict. rewrite seg_features_length, H1.
    reflexivity.
  - intros l. eexists. split_and!; reflexivity.
Qed.

Lemma single_window_detection_raises_witness :
  n_segs_of 100 = 1 ∧
  n_clusters_of (n_segs_of 100) = 2 ∧
  detect_sections block_labelling (x_mfcc (sample_track 0)) 100 [0; 1]%Q
    = Raise ValueError ∧
  (∀ l, ∃ s, merge_labels 100 [0; 1]%Q [l] = Ok [s] ∧
             frameStart s = 0 ∧ frameEnd s = 100).
Proof.
  apply (single_window_detection_raises block_labelling
           (x_mfcc (sample_track 0)) 100 [0; 1]%Q).
  unfold seg_hop, analyze.FPS. lia.
Defined.

(** One window cannot carry two labels, whatever the clustering routine. *)
Lemma one_window_one_cluster (labels : list nat) :
  length labels = 1 → length (remove_dups labels) = 1.
Proof.
  destruct labels as [|l [|l' rest]]; try discriminate. reflexivity.
Qed.
(** ** Frame alignment *)

Lemma bind_ok {A B} (m : result A) (k : A → result B) (b : B) :
  Py.bind m k = Ok b → ∃ a, m = Ok a ∧ k a = Ok b.
Proof. destruct m as [a|e]; simpl; [eauto | discriminate]. Qed.

Lemma mapM_length {A B} (f : A → result B) (xs : list A) (ys : list B) :
  mapM f xs = Ok ys → length ys = length xs.
Proof.
  revert ys. induction xs as [|x xs IH]; simpl; intros ys H.
  - injection H as <-. reflexivity.
  - apply bind_ok in H as (y & _ & H). apply bind_ok in H as (ys' & Hys & H).
    injection H as <-. simpl. f_equal. apply IH. exact Hys.
Qed.

Lemma mapM_Forall2 {A B} (f : A → result B) (xs : list A) (ys : list B) :
  mapM f xs = Ok ys → Forall2 (fun x y => f x = Ok y) xs ys.
Proof.
  revert ys. induction xs as [|x xs IH]; simpl; intros ys H.
  - injection H as <-. constructor.
  - apply bind_ok in H as (y & Hy & H). apply bind_ok in H as (ys' & Hys & H).
    injection H as <-. constructor; [exact Hy | apply IH; exact Hys].
Qed.


Lemma pad_or_trim_reconciled {A} (arr out : list A) (n : nat) :
  pad_or_trim arr n = Ok out → reconciled arr out n.
Proof.
  unfold pad_or_trim, reconciled.
  destruct (Nat.leb_spec n (length arr)) as [Hle | Hlt].
  - intros [= <-]. split_and!.
    + rewrite length_take. lia.
    + reflexivity.
    + lia.
  - destruct (last arr) as [v|] eqn:Hl; [|discriminate].
    intros [= <-]. split_and!.
    + rewrite length_app, length_replicate. lia.
    + lia.
    + intros _. exists v. split; reflexivity.
Qed.

Lemma last_nonempty {A} (arr : list A) : arr ≠ [] → ∃ v, last arr = Some v.
Proof.
  intros H. destruct (last arr) as [v|] eqn:E; [eauto|].
  apply last_None in E. contradiction.
Qed.



Lemma rectangular_rows (a : array2) :
  rectangular a = true ↔ Forall (fun r => length r = shape1 a) (rows a).
Proof.
  unfold rectangular. rewrite forallb_forall, Forall_forall.
  split; intros H r Hr.
  - apply Nat.eqb_eq. apply H. apply list_elem_of_In. exact Hr.
  - apply Nat.eqb_eq. apply H. apply list_elem_of_In. exact Hr.
Qed.

Lemma pad_or_trim_2d_reconciled (arr : array2) (n : nat) :
  rectangular arr = true → 0 < shape1 arr →
  ∃ out, pad_or_trim_2d arr n = Ok out ∧ reconciled_2d arr out n ∧
         rectangular out = true ∧ shape0 out = shape0 arr.
Proof.
  intros Hrect Hpos. apply rectangular_rows in Hrect.
  unfold pad_or_trim_2d.
  destruct (Nat.leb_spec n (shape1 arr)) as [Hle | Hlt].
  - eexists. split_and!; [reflexivity | split; [reflexivity|] | | ].
    + simpl. apply Forall2_fmap_r. apply Forall_Forall2_diag.
      eapply Forall_impl; [exact Hrect|]. intros r Hr. simpl in Hr |- *.
      unfold reconciled. split_and!.
      * rewrite length_take. lia.
      * reflexivity.
      * lia.
    + apply rectangular_rows. simpl. apply Forall_fmap.
      eapply Forall_impl; [exact Hrect|]. intros r Hr. simpl in Hr |- *.
      rewrite length_take. lia.
    + unfold shape0. simpl. apply length_map.
  - destruct (Nat.eqb_spec (shape1 arr) 0) as [H0 | H0]; [lia|].
    eexists. split_and!; [reflexivity | split; [reflexivity|] | | ].
    + simpl. apply Forall2_fmap_r. apply Forall_Forall2_diag.
      eapply Forall_impl; [exact Hrect|]. intros r Hr. simpl in Hr |- *.
      destruct (last_nonempty r) as [v Hv].
      { intros ->. simpl in Hr. lia. }
      rewrite Hv. simpl. unfold reconciled. split_and!.
      * rewrite length_app, length_replicate. lia.
      * lia.
      * intros _. exists v. split; [exact Hv | rewrite Hr; reflexivity].
    + apply rectangular_rows. simpl. apply Forall_fmap.
      eapply Forall_impl; [exact Hrect|]. intros r Hr. simpl in Hr |- *.
      rewrite length_app, length_replicate. lia.
    + unfold shape0. simpl. apply length_map.
Qed.





Lemma normalize_rows_lengths (rs norm_rows : list (list Q)) (c : nat) :
  Forall (fun r => length r = c) rs →
  mapM normalize rs = Ok norm_rows →
  Forall (fun r => length r = c) norm_rows.
Proof.
  intros Hrs H. apply mapM_Forall2 in H.
  induction H as [|r r' rs rs' Hr _ IH]; [constructor|].
  inversion Hrs as [|? ? H1 H2]; subst.
  constructor; [|apply IH; exact H2].
  apply normalize_length in Hr. lia.
Qed.





Lemma pad_or_trim_2d_inv (arr out : array2) (n : nat) :
  rectangular arr = true → pad_or_trim_2d arr n = Ok out →
  reconciled_2d arr out n.
Proof.
  intros Hrect H.
  destruct (Nat.eq_dec (shape1 arr) 0) as [H0 | H0].
  - unfold pad_or_trim_2d in H. rewrite H0 in H.
    destruct (Nat.leb_spec n 0) as [Hn | Hn]; [|discriminate].
    injection H as <-. split; [reflexivity|]. simpl.
    apply Forall2_fmap_r. apply Forall_Forall2_diag.
    apply rectangular_rows in Hrect.
    eapply Forall_impl; [exact Hrect|]. intros r Hr. simpl in Hr |- *.
    unfold reconciled. split_and!.
    + rewrite length_take. lia.
    + reflexivity.
    + lia.
  - destruct (pad_or_trim_2d_reconciled arr n Hrect) as (out' & Ho & Hr & _);
      [lia|].
    rewrite Ho in H. injection H as <-. exact Hr.
Qed.

(** Whenever alignment returns, whatever the native lengths, every stream
    has been normalised (where the pipeline does so) and reconciled. *)
Lemma align_streams_reconciled (x : extracted) (n : nat) (a : aligned) :
  rectangular (x_chroma x) = true → rectangular (x_contrast x) = true →
  align_streams x n = Ok a → aligned_to x a n.
Proof.
  intros Hc Hk H. unfold align_streams in H.
  apply bind_ok in H as (n1 & Hn1 & H). apply bind_ok in H as (n2 & Hn2 & H).
  apply bind_ok in H as (n3 & Hn3 & H). apply bind_ok in H as (n4 & Hn4 & H).
  apply bind_ok in H as (n5 & Hn5 & H). apply bind_ok in H as (n6 & Hn6 & H).
  apply bind_ok in H as (n7 & Hn7 & H). apply bind_ok in H as (kr & Hkr & H).
  apply bind_ok in H as (n8 & Hn8 & H).
  apply bind_ok in H as (s1 & Hs1 & H). apply bind_ok in H as (s2 & Hs2 & H).
  apply bind_ok in H as (s3 & Hs3 & H). apply bind_ok in H as (s4 & Hs4 & H).
  apply bind_ok in H as (s5 & Hs5 & H). apply bind_ok in H as (s6 & Hs6 & H).
  apply bind_ok in H as (s7 & Hs7 & H). apply bind_ok in H as (c' & Hc' & H).
  apply bind_ok in H as (k' & Hk' & H). apply bind_ok in H as (s8 & Hs8 & H).
  injection H as <-.
  assert (Hkrect : rectangular (Array2 (shape1 (x_contrast x)) kr) = true).
  { apply rectangular_rows. simpl. apply rectangular_rows in Hk.
    eapply normalize_rows_lengths; eassumption. }
  constructor; simpl;
    first [ eexists; split;
              [eassumption | apply pad_or_trim_reconciled; assumption]
          | apply pad_or_trim_2d_inv; assumption
          | exists kr; split;
              [assumption | apply pad_or_trim_2d_inv; assumption] ].
Qed.


Lemma analyze_decoded_frames (lab : labelling) (name : string) (x : extracted)
    (out : output) :
  analyze_decoded lab name x = Ok out →
  length (o_frames out) = n_frames_of x ∧
  totalFrames (o_meta out) = n_frames_of x.
Proof.
  unfold analyze_decoded. intros H.
  apply bind_ok in H as (a & _ & H). apply bind_ok in H as (secs & _ & H).
  apply bind_ok in H as (frames & Hf & H). injection H as <-. simpl.
  split; [|reflexivity].
  apply mapM_length in Hf. rewrite Hf. apply length_seq.
Qed.




(** ** Rounding of the serialized values *)

Lemma getitem_Some {A} (l : list A) (i : nat) (v : A) :
  getitem l i = Ok v → l !! i = Some v.
Proof.
  unfold getitem. destruct (l !! i); [|discriminate]. intros [= ->].
  reflexivity.
Qed.

Lemma column_rounded_ok (arr : array2) (k i : nat) (vs : list Q) :
  column arr k i = Ok vs → column_rounded arr i k vs.
Proof.
  unfold column. intros H. split.
  - apply mapM_length in H. rewrite H. apply length_seq.
  - intros c v Hv. apply mapM_Forall2 in H.
    destruct (Forall2_lookup_r _ _ _ _ _ H Hv) as (c' & Hc' & Hf).
    apply lookup_seq in Hc' as [-> _]. simpl in Hf.
    apply bind_ok in Hf as (row & Hrow & Hf).
    apply bind_ok in Hf as (raw & Hraw & Hf). injection Hf as <-.
    exists row. split; [apply getitem_Some; exact Hrow|].
    exists raw. split; [apply getitem_Some; exact Hraw | reflexivity].
Qed.

Lemma build_frame_precision (a : aligned) (beat_set : list nat) (i : nat)
    (f : frame) :
  build_frame a beat_set i = Ok f → frame_precision a i f.
Proof.
  unfold build_frame. intros H.
  apply bind_ok in H as (v1 & H1 & H). apply bind_ok in H as (v2 & H2 & H).
  apply bind_ok in H as (v3 & H3 & H). apply bind_ok in H as (v4 & H4 & H).
  apply bind_ok in H as (v5 & H5 & H). apply bind_ok in H as (v6 & H6 & H).
  apply bind_ok in H as (v7 & H7 & H). apply bind_ok in H as (ch & Hch & H).
  apply bind_ok in H as (co & Hco & H). apply bind_ok in H as (v8 & H8 & H).
  injection H as <-.
  constructor; simpl;
    first [ apply column_rounded_ok; assumption
          | eexists; split; [apply getitem_Some; eassumption | reflexivity] ].
Qed.

Lemma close_section_precision (rms_norm : list Q) (secs : list section)
    (fs fe : nat) :
  Forall (section_precision rms_norm) secs →
  Forall (section_precision rms_norm) (close_section rms_norm secs fs fe).
Proof.
  intros H. unfold close_section. apply Forall_app. split; [exact H|].
  constructor; [|constructor]. reflexivity.
Qed.

Lemma merge_loop_precision (n_frames : nat) (rms_norm : list Q)
    (rest : list nat) :
  ∀ (i : nat) (st : merge_state),
    Forall (section_precision rms_norm) (sections st) →
    Forall (section_precision rms_norm)
           (sections (merge_loop n_frames rms_norm rest i st)).
Proof.
  induction rest as [|l rest IH]; intros i st H; simpl; [exact H|].
  apply IH. unfold merge_step. destruct (negb _); [|exact H].
  simpl. apply close_section_precision. exact H.
Qed.

Lemma detect_sections_precision (lab : labelling) (mfcc : array2)
    (n_frames : nat) (rms_norm : list Q) (secs : list section) :
  detect_sections lab mfcc n_frames rms_norm = Ok secs →
  Forall (section_precision rms_norm) secs.
Proof.
  unfold detect_sections. intros H. apply bind_ok in H as (labels & _ & H).
  unfold merge_labels in H. apply bind_ok in H as (l0 & _ & H).
  injection H as <-. apply close_section_precision.
  apply merge_loop_precision. constructor.
Qed.

(** C8, as the code has it.  In a returned analysis the eight scalars of
    every frame are the aligned stream values rounded to 4 places and the 12
    chroma and 7 contrast entries are rounded to 3 places; outside the
    frames the duration is rounded to 2 places, the tempo to 1 place and
    every section's mean energy to 3 places. *)
Theorem serialized_precision (lab : labelling) (name : string)
    (x : extracted) (out : output) :
  analyze_decoded lab name x = Ok out →
  ∃ a, align_streams x (n_frames_of x) = Ok a ∧ output_precision x a out.
Proof.
  unfold analyze_decoded. intros H.
  apply bind_ok in H as (a & Ha & H). apply bind_ok in H as (secs & Hs & H).
  apply bind_ok in H as (frames & Hf & H). injection H as <-.
  exists a. split; [exact Ha|]. constructor; simpl.
  - reflexivity.
  - reflexivity.
  - eapply detect_sections_precision. exact Hs.
  - intros i f Hi. apply mapM_Forall2 in Hf.
    destruct (Forall2_lookup_r _ _ _ _ _ Hf Hi) as (i' & Hi' & Hb).
    apply lookup_seq in Hi' as [-> _]. simpl in Hb.
    eapply build_frame_precision. exact Hb.
Qed.

Lemma sample_analysis :
  ∃ out a,
    analyze_decoded block_labelling "gd77-05-08s2t08.mp3"
      (sample_track 220600) = Ok out ∧
    align_streams (sample_track 220600) (n_frames_of (sample_track 220600))
      = Ok a ∧
    (duration (o_meta out) == 10)%Q ∧ (tempo (o_meta out) == 1204 # 10)%Q ∧
    (pyround (duration_of (sample_track 220600)) 4 == 100045 # 10000)%Q ∧
    (pyround (x_tempo (sample_track 220600)) 4 == 12037 # 100)%Q.
Proof.
  assert (Hm : (out <- analyze_decoded block_labelling "gd77-05-08s2t08.mp3"
                         (sample_track 220600) ;;
                Ok (duration (o_meta out), tempo (o_meta out)))
               = Ok (1000 # 100, 1204 # 10)%Q)
    by (vm_compute; reflexivity).
  destruct (analyze_decoded block_labelling "gd77-05-08s2t08.mp3"
              (sample_track 220600)) as [out|e] eqn:E; [|discriminate].
  simpl in Hm. injection Hm as Hd Ht.
  pose proof E as E'. unfold analyze_decoded in E'.
  apply bind_ok in E' as (a & Ha & _).
  exists out, a. rewrite Hd, Ht. split_and!; try reflexivity. exact Ha.
Qed.

Lemma serialized_precision_witness :
  ∃ out a,
    analyze_decoded block_labelling "gd77-05-08s2t08.mp3"
      (sample_track 220600) = Ok out ∧
    align_streams (sample_track 220600) (n_frames_of (sample_track 220600))
      = Ok a ∧
    output_precision (sample_track 220600) a out.
Proof.
  destruct sample_analysis as (out & a & Hout & Ha & _).
  exists out.
  destruct (serialized_precision block_labelling "gd77-05-08s2t08.mp3"
              (sample_track 220600) out Hout) as (a' & Ha' & Hp).
  exists a'. split_and!; assumption.
Defined.

(** C8 as the specification words it fails outside the frames: for a
    waveform of 220600 samples (10.0045 s) and a tempo of 120.37 the record
    carries the duration 10.00 and the tempo 120.4, not their values at four
    decimal places, 10.0045 and 120.3700. *)
Lemma four_places_counterexample :
  ∃ out a,
    analyze_decoded block_labelling "gd77-05-08s2t08.mp3"
      (sample_track 220600) = Ok out ∧
    align_streams (sample_track 220600) (n_frames_of (sample_track 220600))
      = Ok a ∧
    ¬ spec_scalars_four_places (sample_track 220600) a out.
Proof.
  destruct sample_analysis as (out & a & Hout & Ha & Hd & Ht & Hd4 & Ht4).
  exists out, a. split_and!; [exact Hout | exact Ha |].
  intros (Hdur & _). rewrite Hd, Hd4 in Hdur. discriminate.
Qed.
(** ** The batch runner *)

Lemma exists_audio_false (w : world) (p : string) :
  exists_audio w p = false ↔ audio w !! p = None.
Proof.
  unfold exists_audio. rewrite bool_decide_eq_false.
  rewrite <- eq_None_not_Some. reflexivity.
Qed.

Lemma exists_audio_true (w : world) (p : string) :
  exists_audio w p = true ↔ is_Some (audio w !! p).
Proof. unfold exists_audio. apply bool_decide_eq_true. Qed.

Lemma process_song_missing (lab : labelling) (resume : bool) (dir : string)
    (st : run_state) (s : song) :
  exists_audio (files st) (audio_path_of dir s) = false →
  process_song lab resume dir st s =
    Ok {| timeline_tracks :=
            timeline_tracks st ++ [missing_entry s (global_offset st)];
          global_offset := global_offset st;
          total_duration := total_duration st;
          files := files st;
          trace := trace st ++ [Skipped (audio_path_of dir s)] |}.
Proof. intros H. unfold process_song. rewrite H. reflexivity. Qed.

Lemma analyze_track_inv (lab : labelling) (w w' : world) (ap op : string)
    (out : output) :
  analyze_track lab w ap op = Ok (out, w') →
  audio w' = audio w ∧ analyses w' = <[op := out]> (analyses w) ∧
  ∃ x, audio w !! ap = Some (Decodes x) ∧
       analyze_decoded lab (path_name ap) x = Ok out.
Proof.
  unfold analyze_track.
  destruct (audio w !! ap) as [[x | c] |]; try discriminate.
  intros H. apply bind_ok in H as (o & Ho & H). injection H as <- <-.
  simpl. split_and!; [reflexivity | reflexivity |]. exists x. auto.
Qed.

Lemma track_metadata_inv (lab : labelling) (resume : bool) (ap op : string)
    (w w' : world) (tr tr' : list event) (tf : nat) (d : Q) :
  track_metadata lab resume ap op w tr = Ok (tf, d, w', tr') →
  audio w' = audio w ∧
  (∃ o, analyses w' !! op = Some o ∧
        totalFrames (o_meta o) = tf ∧ duration (o_meta o) = d) ∧
  (∀ p, p ≠ op → analyses w' !! p = analyses w !! p) ∧
  ∃ ev, tr' = tr ++ [ev] ∧
        (ev = Analyzed ap op ∨ (resume = true ∧ ev = LoadedAnalysis op)).
Proof.
  unfold track_metadata.
  destruct (if resume then analyses w !! op else None) as [existing|] eqn:E.
  - intros [= <- <- <- <-].
    destruct resume; [|discriminate].
    split_and!; [reflexivity | eauto | reflexivity |].
    eexists. split; [reflexivity|]. right. auto.
  - intros H. apply bind_ok in H as ([out w1] & Ha & H).
    simpl in H. injection H as <- <- <- <-.
    apply analyze_track_inv in Ha as (Hau & Han & _).
    split_and!.
    + exact Hau.
    + exists out. rewrite Han, lookup_insert_eq. auto.
    + intros p Hp. rewrite Han. apply lookup_insert_ne. congruence.
    + eexists. split; [reflexivity|]. left. reflexivity.
Qed.

Lemma process_song_present (lab : labelling) (resume : bool) (dir : string)
    (st st' : run_state) (s : song) :
  exists_audio (files st) (audio_path_of dir s) = true →
  process_song lab resume dir st s = Ok st' →
  ∃ tf d w' tr',
    track_metadata lab resume (audio_path_of dir s) (output_path_of s)
      (files st) (trace st) = Ok (tf, d, w', tr') ∧
    st' = {| timeline_tracks :=
               timeline_tracks st ++ [track_entry s (global_offset st) tf];
             global_offset := global_offset st + tf;
             total_duration := (total_duration st + d)%Q;
             files := w';
             trace := tr' |}.
Proof.
  intros He. unfold process_song. rewrite He. simpl.
  intros H. apply bind_ok in H as ([[[tf d] w'] tr'] & Hm & H).
  injection H as <-. exists tf, d, w', tr'. split; [exact Hm | reflexivity].
Qed.

Lemma run_songs_processed (lab : labelling) (resume : bool) (dir : string)
    (ss : list song) :
  ∀ st st',
    run_songs lab resume dir ss st = Ok st' →
    audio (files st') = audio (files st) ∧
    ∃ es evs,
      timeline_tracks st' = timeline_tracks st ++ es ∧
      trace st' = trace st ++ evs ∧
      processed (audio (files st)) resume dir
        (global_offset st) ss es evs (global_offset st').
Proof.
  induction ss as [|s ss IH]; intros st st' H; simpl in H.
  - injection H as <-. split; [reflexivity|].
    exists [], []. rewrite !app_nil_r. split_and!; [reflexivity.. | constructor].
  - apply bind_ok in H as (st1 & H1 & H).
    destruct (IH _ _ H) as (Hau & es & evs & Hes & Hevs & Hp).
    destruct (exists_audio (files st) (audio_path_of dir s)) eqn:He.
    + destruct (process_song_present _ _ _ _ _ _ He H1)
        as (tf & d & w' & tr' & Hm & ->).
      apply track_metadata_inv in Hm as (Hau' & _ & _ & ev & -> & Hev).
      simpl in *. split; [congruence|].
      exists (track_entry s (global_offset st) tf :: es), (ev :: evs).
      rewrite Hes, Hevs, <- !app_assoc. split_and!; [reflexivity.. |].
      rewrite Hau' in Hp.
      econstructor; [apply exists_audio_true; exact He | exact Hev | exact Hp].
    + rewrite (process_song_missing _ _ _ _ _ He) in H1. injection H1 as <-.
      simpl in *. split; [exact Hau|].
      exists (missing_entry s (global_offset st) :: es),
             (Skipped (audio_path_of dir s) :: evs).
      rewrite Hes, Hevs, <- !app_assoc. split_and!; [reflexivity.. |].
      constructor; [apply exists_audio_false; exact He | exact Hp].
Qed.

Section Processed.
Context (au : gmap string audio_file) (resume : bool) (dir : string).

Lemma processed_ids off ss es evs off' :
  processed au resume dir off ss es evs off' →
  map e_trackId es = map trackId ss.
Proof. induction 1; simpl; congruence. Qed.

Lemma processed_monotone off ss es evs off' :
  processed au resume dir off ss es evs off' → off ≤ off'.
Proof. induction 1; lia. Qed.

Lemma processed_first off ss es evs off' e :
  processed au resume dir off ss es evs off' →
  es !! 0 = Some e → globalFrameStart e = off.
Proof. destruct 1; simpl; intros [= <-]; reflexivity. Qed.

Lemma processed_width off ss es evs off' i e :
  processed au resume dir off ss es evs off' →
  es !! i = Some e →
  globalFrameEnd e = globalFrameStart e + e_totalFrames e.
Proof.
  intros H. revert i. induction H; intros i Hi.
  - discriminate.
  - destruct i as [|i]; simpl in Hi; [|eauto].
    injection Hi as <-. simpl. lia.
  - destruct i as [|i]; simpl in Hi; [|eauto].
    injection Hi as <-. reflexivity.
Qed.

Lemma processed_contiguous off ss es evs off' i a b :
  processed au resume dir off ss es evs off' →
  es !! i = Some a → es !! (S i) = Some b →
  globalFrameStart b = globalFrameEnd a.
Proof.
  intros H. revert i. induction H as [| ? ? ? ? ? ? ? H IH | ? ? ? ? ? ? ? ? ? ? H IH];
    intros i Ha Hb.
  - discriminate.
  - destruct i as [|i]; simpl in Ha, Hb; [|eauto].
    injection Ha as <-. simpl. eapply processed_first; eassumption.
  - destruct i as [|i]; simpl in Ha, Hb; [|eauto].
    injection Ha as <-. simpl. eapply processed_first; eassumption.
Qed.

Lemma processed_missing_flag off ss es evs off' i s e :
  processed au resume dir off ss es evs off' →
  ss !! i = Some s → es !! i = Some e →
  missing e = negb (bool_decide (is_Some (au !! audio_path_of dir s))).
Proof.
  intros H. revert i.
  induction H as [| ? ? ? ? ? ? Hn H IH | ? ? ? ? ? ? ? ? Hs ? H IH];
    intros i Hi He.
  - discriminate.
  - destruct i as [|i]; simpl in Hi, He; [|eauto].
    injection Hi as <-. injection He as <-. simpl.
    rewrite bool_decide_eq_false_2; [reflexivity|].
    rewrite Hn. intros [? ?]. discriminate.
  - destruct i as [|i]; simpl in Hi, He; [|eauto].
    injection Hi as <-. injection He as <-. simpl.
    rewrite bool_decide_eq_true_2; [reflexivity | exact Hs].
Qed.

Lemma processed_missing_empty off ss es evs off' i e :
  processed au resume dir off ss es evs off' →
  es !! i = Some e → missing e = true →
  globalFrameStart e = globalFrameEnd e ∧ e_totalFrames e = 0.
Proof.
  intros H. revert i. induction H; intros i Hi Hm.
  - discriminate.
  - destruct i as [|i]; simpl in Hi; [|eauto].
    injection Hi as <-. simpl. auto.
  - destruct i as [|i]; simpl in Hi; [|eauto].
    injection Hi as <-. simpl in Hm. discriminate.
Qed.

Lemma processed_last off ss es evs off' e :
  processed au resume dir off ss es evs off' →
  last es = Some e → globalFrameEnd e = off'.
Proof.
  induction 1 as [| ? ? ? ? ? ? ? H IH | ? ? ? ? ? ? ? ? ? ? H IH];
    intros Hl.
  - discriminate.
  - inversion H; subst.
    + simpl in Hl. injection Hl as <-. reflexivity.
    + apply IH. exact Hl.
    + apply IH. exact Hl.
  - inversion H; subst.
    + simpl in Hl. injection Hl as <-. simpl. reflexivity.
    + apply IH. exact Hl.
    + apply IH. exact Hl.
Qed.

Lemma processed_total off ss es evs off' :
  processed au resume dir off ss es evs off' →
  off' = off + frames_of_present es.
Proof.
  unfold frames_of_present. induction 1 as [| ? ? ? ? ? ? ? H IH | ? ? ? ? ? ? ? ? ? ? H IH].
  - simpl. lia.
  - rewrite filter_cons_False; [exact IH|]. simpl. discriminate.
  - rewrite filter_cons_True by reflexivity. simpl. lia.
Qed.

Lemma processed_events off ss es evs off' i s :
  processed au resume dir off ss es evs off' →
  ss !! i = Some s →
  ∃ e ev, es !! i = Some e ∧ evs !! i = Some ev ∧
          (au !! audio_path_of dir s = None →
             missing e = true ∧ ev = Skipped (audio_path_of dir s)) ∧
          (∀ p, ev = LoadedAnalysis p →
             is_Some (au !! audio_path_of dir s) ∧ resume = true ∧
             p = output_path_of s ∧ missing e = false).
Proof.
  intros H. revert i.
  induction H as [| ? ? ? ? ? ? Hn H IH | ? ? ? ? ? ? ? ? Hs Hev H IH];
    intros i Hi.
  - discriminate.
  - destruct i as [|i]; simpl in Hi; [|eauto].
    injection Hi as <-. do 2 eexists. split_and!; [reflexivity.. | |].
    + auto.
    + intros p Hp. discriminate.
  - destruct i as [|i]; simpl in Hi; [|eauto].
    injection Hi as <-. do 2 eexists. split_and!; [reflexivity.. | |].
    + intros Hn. rewrite Hn in Hs. destruct Hs. discriminate.
    + intros p Hp. destruct Hev as [-> | [Hr ->]]; [discriminate|].
      injection Hp as <-. auto.
Qed.

End Processed.

Lemma main_inv (lab : labelling) (resume : bool) (dir : string)
    (sl : setlist) (w w' : world) (tl : timeline) (tr : list event) :
  main lab resume dir sl w = Ok (tl, w', tr) →
  ∃ st, run_songs lab resume dir (songs sl) (initial_state w) = Ok st ∧
        tl = timeline_of sl st ∧ w' = files st ∧ tr = trace st.
Proof.
  unfold main. intros H. apply bind_ok in H as (st & Hst & H).
  injection H as <- <- <-. eauto.
Qed.

(** C3.  In a timeline the batch runner returns, the entries follow the
    setlist; each entry starts where the previous one ended, the first at
    frame 0; the entry of a track whose audio is absent, and only that one,
    is flagged missing, is empty and has [totalFrames = 0]; the timeline's
    [totalFrames] is the end of the last entry and the sum of the
    [totalFrames] of the entries not flagged missing.  Processing a track
    whose audio is absent leaves the running offset and the accumulated
    duration as they were. *)
Theorem timeline_offsets (lab : labelling) (resume : bool) (dir : string)
    (sl : setlist) (w w' : world) (tl : timeline) (tr : list event) :
  main lab resume dir sl w = Ok (tl, w', tr) →
  timeline_consistent w dir sl tl ∧
  (∀ st s, exists_audio (files st) (audio_path_of dir s) = false →
           ∃ st', process_song lab resume dir st s = Ok st' ∧
                  global_offset st' = global_offset st ∧
                  total_duration st' = total_duration st).
Proof.
  intros H. split.
  - apply main_inv in H as (st & Hrun & -> & _ & _).
    apply run_songs_processed in Hrun as (_ & es & evs & Hes & _ & Hp).
    simpl in Hes, Hp. subst es.
    constructor; simpl.
    + eapply processed_ids; exact Hp.
    + intros e. eapply processed_first; exact Hp.
    + intros i a b. eapply processed_contiguous; exact Hp.
    + intros i e. eapply processed_width; exact Hp.
    + intros i s e. unfold exists_audio.
      eapply processed_missing_flag; exact Hp.
    + intros i e. eapply processed_missing_empty; exact Hp.
    + intros e. eapply processed_last; exact Hp.
    + apply (processed_total _ _ _ _ _ _ _ _ Hp).
  - intros st s He. eexists. split; [apply process_song_missing; exact He|].
    split; reflexivity.
Qed.

Lemma sample_run :
  ∃ tl w' tr,
    main block_labelling true "audio" sample_setlist resumed_world
      = Ok (tl, w', tr) ∧
    t_totalFrames tl = 751 ∧
    tr = [ Analyzed "audio/gd77-05-08s2t08.mp3"
             "data/tracks/s2t08-analysis.json";
           Skipped "audio/gd77-05-08s2t07.mp3";
           LoadedAnalysis "data/tracks/s2t09-analysis.json" ].
Proof.
  assert (H : ∃ tl,
            timeline_and_trace
              (main block_labelling true "audio" sample_setlist resumed_world)
            = Ok (tl, [ Analyzed "audio/gd77-05-08s2t08.mp3"
                          "data/tracks/s2t08-analysis.json";
                        Skipped "audio/gd77-05-08s2t07.mp3";
                        LoadedAnalysis "data/tracks/s2t09-analysis.json" ]) ∧
            t_totalFrames tl = 751).
  { eexists. split; [vm_compute; reflexivity | reflexivity]. }
  destruct H as (tl & H & Htot).
  destruct (main block_labelling true "audio" sample_setlist resumed_world)
    as [[[tl' w'] tr]|e]; [|discriminate].
  simpl in H. injection H as -> ->.
  exists tl, w'. eexists. split_and!; [reflexivity | exact Htot | reflexivity].
Qed.

Lemma timeline_offsets_witness :
  ∃ tl, timeline_consistent resumed_world "audio" sample_setlist tl ∧
        t_totalFrames tl = 751.
Proof.
  destruct sample_run as (tl & w' & tr & Hrun & Htot & _).
  exists tl. split; [|exact Htot].
  exact (proj1 (timeline_offsets block_labelling true "audio" sample_setlist
                  resumed_world w' tl tr Hrun)).
Defined.

(** C10.  In a run that returns, the entry of every song whose audio file
    is absent is flagged missing and the only file access made for it is
    the failed existence check, whatever the resume flag and the persisted
    analyses; a persisted analysis is loaded only for a song whose audio
    file exists, in resume mode.  Processing a song whose audio is absent
    appends the missing entry and leaves the files untouched. *)
Theorem missing_audio_precedes_resume (lab : labelling) (resume : bool)
    (dir : string) (sl : setlist) (w w' : world) (tl : timeline)
    (tr : list event) (i : nat) (s : song) :
  main lab resume dir sl w = Ok (tl, w', tr) →
  songs sl !! i = Some s →
  (∃ e ev,
     tracks tl !! i = Some e ∧ tr !! i = Some ev ∧
     (exists_audio w (audio_path_of dir s) = false →
        missing e = true ∧ ev = Skipped (audio_path_of dir s)) ∧
     (∀ p, ev = LoadedAnalysis p →
        exists_audio w (audio_path_of dir s) = true ∧ resume = true ∧
        p = output_path_of s ∧ missing e = false)) ∧
  (∀ st, exists_audio (files st) (audio_path_of dir s) = false →
         ∃ st', process_song lab resume dir st s = Ok st' ∧
                timeline_tracks st' =
                  timeline_tracks st ++ [missing_entry s (global_offset st)] ∧
                trace st' = trace st ++ [Skipped (audio_path_of dir s)] ∧
                files st' = files st).
Proof.
  intros H Hs. split.
  - apply main_inv in H as (st & Hrun & -> & _ & ->).
    apply run_songs_processed in Hrun as (_ & es & evs & Hes & Hevs & Hp).
    simpl in Hes, Hevs, Hp. simpl. rewrite Hes, Hevs.
    destruct (processed_events _ _ _ _ _ _ _ _ i s Hp Hs)
      as (e & ev & He & Hev & Hmiss & Hload).
    exists e, ev. split_and!; [exact He | exact Hev | |].
    + intros Ha. apply Hmiss. apply exists_audio_false. exact Ha.
    + intros p Hl. destruct (Hload p Hl) as (Ha & Hr & Hp' & Hm).
      split_and!; [apply exists_audio_true; exact Ha | assumption..].
  - intros st He. eexists. split; [apply process_song_missing; exact He|].
    split_and!; reflexivity.
Qed.

Lemma missing_audio_precedes_resume_witness :
  ∃ e ev,
    missing e = true ∧
    ev = Skipped "audio/gd77-05-08s2t07.mp3" ∧
    is_Some (analyses resumed_world !! "data/tracks/s2t07-analysis.json").
Proof.
  destruct sample_run as (tl & w' & tr & Hrun & _ & _).
  destruct (missing_audio_precedes_resume block_labelling true "audio"
              sample_setlist resumed_world w' tl tr 1
              {| trackId := "s2t07"; title := "St. Stephen";
                 audioFile := "gd77-05-08s2t07.mp3" |} Hrun eq_refl)
    as ((e & ev & He & Hev & Hmiss & _) & _).
  destruct (Hmiss eq_refl) as [Hm Hsk].
  exists e, ev. split_and!; [exact Hm | exact Hsk | vm_compute; eauto].
Defined.

(** ** Absent and undecodable audio *)

Lemma analyze_track_undecodable (lab : labelling) (w : world)
    (ap op exn_class : string) :
  audio w !! ap = Some (Undecodable exn_class) →
  analyze_track lab w ap op = Raise (LoaderError exn_class).
Proof. intros H. unfold analyze_track. rewrite H. reflexivity. Qed.

(** C9, as the code has it.  When the audio file does not exist the
    single-track pipeline terminates the process through [sys.exit(1)], that
    is, it raises [SystemExit] with status 1 and no [AudioLoadError]; when
    the file cannot be decoded the decoder's own exception goes through
    unchanged.  The batch runner tests for the file itself, appends the
    missing entry, leaves the files untouched and goes on with the remaining
    songs. *)
Theorem absent_audio_handling (lab : labelling) (resume : bool) (dir : string)
    (st : run_state) (s : song) :
  audio (files st) !! audio_path_of dir s = None →
  analyze_track lab (files st) (audio_path_of dir s) (output_path_of s)
    = Raise (SystemExit 1) ∧
  ¬ fails_with "AudioLoadError"
      (analyze_track lab (files st) (audio_path_of dir s) (output_path_of s)) ∧
  (∀ w ap op exn_class,
     audio w !! ap = Some (Undecodable exn_class) →
     analyze_track lab w ap op = Raise (LoaderError exn_class)) ∧
  ∃ st', process_song lab resume dir st s = Ok st' ∧
         files st' = files st ∧
         last (timeline_tracks st') = Some (missing_entry s (global_offset st)) ∧
         ∀ ss, run_songs lab resume dir (s :: ss) st
               = run_songs lab resume dir ss st'.
Proof.
  intros H.
  assert (Ha : analyze_track lab (files st) (audio_path_of dir s)
                 (output_path_of s) = Raise (SystemExit 1)).
  { unfold analyze_track. rewrite H. reflexivity. }
  split_and!.
  - exact Ha.
  - rewrite Ha. intros (e & [= <-] & Hn). discriminate.
  - intros w ap op exn_class. apply analyze_track_undecodable.
  - apply exists_audio_false in H.
    eexists. split_and!; [apply process_song_missing; exact H | reflexivity | |].
    + simpl. apply last_snoc.
    + intros ss. simpl. rewrite (process_song_missing _ _ _ _ _ H).
      reflexivity.
Qed.

Lemma absent_audio_handling_witness :
  analyze_track block_labelling sample_world "audio/gd77-05-08s2t07.mp3"
    "data/tracks/s2t07-analysis.json" = Raise (SystemExit 1).
Proof.
  exact (proj1 (absent_audio_handling block_labelling false "audio"
                  (initial_state sample_world)
                  {| trackId := "s2t07"; title := "St. Stephen";
                     audioFile := "gd77-05-08s2t07.mp3" |} eq_refl)).
Defined.

(** C9 as the specification words it fails: for an absent file the
    pipeline raises [SystemExit], and for a file the decoder rejects it lets
    the decoder's own exception through; neither is an [AudioLoadError]. *)
Lemma audio_load_error_counterexample :
  analyze_track block_labelling sample_world "audio/gd77-05-08s2t07.mp3"
    "data/tracks/s2t07-analysis.json" = Raise (SystemExit 1) ∧
  analyze_track block_labelling sample_world "audio/broken.mp3"
    "data/tracks/broken-analysis.json" = Raise (LoaderError "NoBackendError") ∧
  ¬ fails_with "AudioLoadError"
      (analyze_track block_labelling sample_world "audio/gd77-05-08s2t07.mp3"
         "data/tracks/s2t07-analysis.json") ∧
  ¬ fails_with "AudioLoadError"
      (analyze_track block_labelling sample_world "audio/broken.mp3"
         "data/tracks/broken-analysis.json").
Proof.
  assert (H1 : analyze_track block_labelling sample_world
                 "audio/gd77-05-08s2t07.mp3" "data/tracks/s2t07-analysis.json"
               = Raise (SystemExit 1)) by reflexivity.
  assert (H2 : analyze_track block_labelling sample_world "audio/broken.mp3"
                 "data/tracks/broken-analysis.json"
               = Raise (LoaderError "NoBackendError")) by reflexivity.
  split_and!; [exact H1 | exact H2 | |].
  - rewrite H1. intros (e & [= <-] & Hn). discriminate.
  - rewrite H2. intros (e & [= <-] & Hn). discriminate.
Qed.
(** ** Resuming a run *)










Import Props MoreSamples.

(** * Further properties *)

(** ** Rounding *)

Lemma round_half_even_bounds (y : Q) (a b : Z) :
  (inject_Z a <= y)%Q → (y <= inject_Z b)%Q →
  (a <= round_half_even y <= b)%Z.
Proof.
  destruct y as [p d]. unfold Qle, round_half_even. simpl.
  intros Ha Hb.
  pose proof (Z.div_mod p (Zpos d) ltac:(lia)) as Hdm.
  pose proof (Z.mod_pos_bound p (Zpos d) ltac:(lia)) as Hr.
  set (q := (p / Zpos d)%Z) in *. set (r := (p mod Zpos d)%Z) in *.
  assert (Hq1 : (a <= q)%Z) by nia.
  assert (Hq2 : (q <= b)%Z) by nia.
  assert (Hq3 : (0 < r → q + 1 <= b)%Z) by nia.
  destruct (Z.compare_spec (2 * r) (Zpos d)) as [E | E | E].
  - destruct (Z.even q); lia.
  - lia.
  - lia.
Qed.

Lemma pyround_bounds (x : Q) (ndigits : nat) (a b : Z) :
  (inject_Z a <= x * inject_Z (Zpos (pow10 ndigits)))%Q →
  (x * inject_Z (Zpos (pow10 ndigits)) <= inject_Z b)%Q →
  (a # pow10 ndigits <= pyround x ndigits)%Q ∧
  (pyround x ndigits <= b # pow10 ndigits)%Q.
Proof.
  intros Ha Hb.
  destruct (round_half_even_bounds _ a b Ha Hb) as [H1 H2].
  unfold pyround, Qle. simpl. split; nia.
Qed.

Lemma pyround_unit (x : Q) (ndigits : nat) :
  unit_interval x → unit_interval (pyround x ndigits).
Proof.
  intros [H0 H1].
  destruct (pyround_bounds x ndigits 0 (Zpos (pow10 ndigits))) as [Ha Hb].
  - change (inject_Z 0) with 0%Q.
    apply Qmult_le_0_compat; [exact H0 | unfold Qle; simpl; lia].
  - rewrite <- (Qmult_1_l (inject_Z (Zpos (pow10 ndigits)))) at 2.
    apply Qmult_le_compat_r; [exact H1 | unfold Qle; simpl; lia].
  - split.
    + eapply Qle_trans; [|exact Ha]. unfold Qle. simpl. lia.
    + eapply Qle_trans; [exact Hb|]. unfold Qle. simpl. lia.
Qed.

(** ** Range of the serialized features *)

Lemma normalize_range (arr out : list Q) :
  normalize arr = Ok out → Forall unit_interval out.
Proof.
  destruct arr as [|a r]; [discriminate|].
  unfold normalize, arr_min, arr_max, Py.bind.
  set (mn := fold_left Qmin r a). set (mx := fold_left Qmax r a).
  destruct (Qltb (mx - mn) epsilon) eqn:E; intros H.
  - assert (Ho : out = zeros_like (a :: r)) by congruence.
    rewrite Ho. unfold zeros_like. apply Forall_fmap. apply Forall_true.
    intros y. split; simpl; lra.
  - assert (Ho : out = map (fun x => ((x - mn) / (mx - mn))%Q) (a :: r))
      by congruence.
    rewrite Ho. clear H Ho.
    apply Qltb_false in E.
    assert (Hd : (0 < mx - mn)%Q).
    { eapply Qlt_le_trans; [apply epsilon_pos | exact E]. }
    destruct (fold_Qmin_le r a) as [Ha Hr].
    destruct (fold_Qmax_ge r a) as [Ha' Hr'].
    apply Forall_fmap. apply Forall_forall. intros y Hy. simpl.
    apply unit_interval_div; [ | | exact Hd].
    + apply elem_of_cons in Hy as [-> | Hy]; [exact Ha|].
      rewrite Forall_forall in Hr. apply Hr. exact Hy.
    + apply elem_of_cons in Hy as [-> | Hy]; [exact Ha'|].
      rewrite Forall_forall in Hr'. apply Hr'. exact Hy.
Qed.

Lemma pad_or_trim_Forall {A} (P : A → Prop) (arr out : list A) (n : nat) :
  Forall P arr → pad_or_trim arr n = Ok out → Forall P out.
Proof.
  intros HP. unfold pad_or_trim. destruct (n <=? length arr).
  - intros [= <-]. apply Forall_take. exact HP.
  - destruct (last arr) as [v|] eqn:Hl; [|discriminate].
    intros [= <-]. apply Forall_app. split; [exact HP|].
    apply Forall_replicate. rewrite Forall_forall in HP. apply HP.
    apply last_Some_elem_of. exact Hl.
Qed.

Lemma pad_or_trim_2d_Forall (P : Q → Prop) (arr out : array2) (n : nat) :
  P 0%Q → Forall (Forall P) (rows arr) → pad_or_trim_2d arr n = Ok out →
  Forall (Forall P) (rows out).
Proof.
  intros H0 HP. unfold pad_or_trim_2d. destruct (n <=? shape1 arr).
  - intros [= <-]. simpl. apply Forall_fmap.
    eapply Forall_impl; [exact HP|]. intros r Hr. simpl.
    apply Forall_take. exact Hr.
  - destruct (shape1 arr =? 0); [discriminate|].
    intros [= <-]. simpl. apply Forall_fmap.
    eapply Forall_impl; [exact HP|]. intros r Hr. simpl.
    apply Forall_app. split; [exact Hr|]. apply Forall_replicate.
    destruct (last r) as [v|] eqn:Hl; simpl; [|exact H0].
    rewrite Forall_forall in Hr. apply Hr. apply last_Some_elem_of. exact Hl.
Qed.

Lemma normalize_then_pad_range (raw norm s : list Q) (n : nat) :
  normalize raw = Ok norm → pad_or_trim norm n = Ok s →
  Forall unit_interval s.
Proof.
  intros Hn Hp. eapply pad_or_trim_Forall; [|exact Hp].
  eapply normalize_range. exact Hn.
Qed.

Lemma align_streams_range (x : extracted) (n : nat) (a : aligned) :
  align_streams x n = Ok a →
  Forall unit_interval (a_rms a) ∧ Forall unit_interval (a_cent a) ∧
  Forall unit_interval (a_onset a) ∧ Forall unit_interval (a_sub a) ∧
  Forall unit_interval (a_low a) ∧ Forall unit_interval (a_mid a) ∧
  Forall unit_interval (a_high a) ∧ Forall unit_interval (a_flatness a) ∧
  Forall (Forall unit_interval) (rows (a_contrast a)).
Proof.
  intros H. unfold align_streams in H.
  apply bind_ok in H as (n1 & Hn1 & H). apply bind_ok in H as (n2 & Hn2 & H).
  apply bind_ok in H as (n3 & Hn3 & H). apply bind_ok in H as (n4 & Hn4 & H).
  apply bind_ok in H as (n5 & Hn5 & H). apply bind_ok in H as (n6 & Hn6 & H).
  apply bind_ok in H as (n7 & Hn7 & H). apply bind_ok in H as (kr & Hkr & H).
  apply bind_ok in H as (n8 & Hn8 & H).
  apply bind_ok in H as (s1 & Hs1 & H). apply bind_ok in H as (s2 & Hs2 & H).
  apply bind_ok in H as (s3 & Hs3 & H). apply bind_ok in H as (s4 & Hs4 & H).
  apply bind_ok in H as (s5 & Hs5 & H). apply bind_ok in H as (s6 & Hs6 & H).
  apply bind_ok in H as (s7 & Hs7 & H). apply bind_ok in H as (c' & Hc' & H).
  apply bind_ok in H as (k' & Hk' & H). apply bind_ok in H as (s8 & Hs8 & H).
  injection H as <-. simpl.
  split_and!;
    [ exact (normalize_then_pad_range _ _ _ _ Hn1 Hs1)
    | exact (normalize_then_pad_range _ _ _ _ Hn2 Hs2)
    | exact (normalize_then_pad_range _ _ _ _ Hn3 Hs3)
    | exact (normalize_then_pad_range _ _ _ _ Hn4 Hs4)
    | exact (normalize_then_pad_range _ _ _ _ Hn5 Hs5)
    | exact (normalize_then_pad_range _ _ _ _ Hn6 Hs6)
    | exact (normalize_then_pad_range _ _ _ _ Hn7 Hs7)
    | exact (normalize_then_pad_range _ _ _ _ Hn8 Hs8)
    | ].
  eapply (pad_or_trim_2d_Forall unit_interval); [| |exact Hk'].
  - split; simpl; lra.
  - simpl. apply mapM_Forall2 in Hkr.
    clear -Hkr. induction Hkr as [|r r' rs rs' Hr _ IH]; constructor.
    + eapply normalize_range. exact Hr.
    + exact IH.
Qed.

Lemma rounded_at_unit (stream : list Q) (i ndigits : nat) (v : Q) :
  Forall unit_interval stream → rounded_at stream i ndigits v →
  unit_interval v.
Proof.
  intros HP (raw & Hraw & ->). apply pyround_unit.
  rewrite Forall_forall in HP. apply HP.
  eapply list_elem_of_lookup_2. exact Hraw.
Qed.

Lemma column_rounded_unit (arr : array2) (i k : nat) (vs : list Q) :
  Forall (Forall unit_interval) (rows arr) → column_rounded arr i k vs →
  Forall unit_interval vs.
Proof.
  intros HP [_ Hvs]. apply Forall_forall. intros v Hv.
  apply list_elem_of_lookup_1 in Hv as [c Hc].
  destruct (Hvs c v Hc) as (row & Hrow & Hr).
  eapply rounded_at_unit; [|exact Hr].
  rewrite Forall_forall in HP. apply HP.
  eapply list_elem_of_lookup_2. exact Hrow.
Qed.

(** X1.  In a returned analysis, the eight scalar features of every frame
    and its seven contrast entries lie in [[0, 1]]: normalisation puts them
    there, and neither edge padding nor rounding takes them out. *)
Theorem features_in_unit_interval (lab : labelling) (name : string)
    (x : extracted) (out : output) :
  analyze_decoded lab name x = Ok out →
  ∀ i f, o_frames out !! i = Some f → frame_in_range f.
Proof.
  unfold analyze_decoded. intros H.
  apply bind_ok in H as (a & Ha & H). apply bind_ok in H as (secs & _ & H).
  apply bind_ok in H as (frames & Hf & H). injection H as <-. simpl.
  intros i f Hi. apply mapM_Forall2 in Hf.
  destruct (Forall2_lookup_r _ _ _ _ _ Hf Hi) as (i' & Hi' & Hb).
  apply lookup_seq in Hi' as [-> _]. simpl in Hb.
  apply build_frame_precision in Hb as [].
  apply align_streams_range in Ha
    as (R1 & R2 & R3 & R4 & R5 & R6 & R7 & R8 & R9).
  constructor;
    first [ eapply rounded_at_unit; [|eassumption]; assumption
          | eapply column_rounded_unit; [|eassumption]; assumption ].
Qed.

Lemma features_in_unit_interval_witness :
  ∃ out, analyze_decoded block_labelling "gd77-05-08s2t08.mp3"
           (sample_track 220600) = Ok out ∧
         ∀ i f, o_frames out !! i = Some f → frame_in_range f.
Proof.
  destruct sample_analysis as (out & a & Hout & _).
  exists out. split; [exact Hout|].
  exact (features_in_unit_interval _ _ _ _ Hout).
Defined.

(** ** Energy tiers *)

Lemma energy_label_high (avg : Q) :
  energy_label_of avg = high ↔ (1 # 2 < avg)%Q.
Proof.
  unfold energy_label_of.
  destruct (Qltb (1 # 2) avg) eqn:E1.
  - apply Qltb_true in E1. tauto.
  - apply Qltb_false in E1. destruct (Qltb (1 # 4) avg); split;
      first [discriminate | intros H; exfalso; apply (Qlt_not_le _ _ H E1)].
Qed.

Lemma energy_label_low (avg : Q) :
  energy_label_of avg = low ↔ (avg <= 1 # 4)%Q.
Proof.
  unfold energy_label_of.
  destruct (Qltb (1 # 2) avg) eqn:E1.
  - apply Qltb_true in E1. split; [discriminate|]. intros H. lra.
  - destruct (Qltb (1 # 4) avg) eqn:E2.
    + apply Qltb_true in E2. split; [discriminate|]. intros H. lra.
    + apply Qltb_false in E2. tauto.
Qed.

(** X2.  The energy tier is [high] exactly above 0.5 and [low] exactly up
    to 0.25 (both thresholds fall to the lower tier), and it never decreases
    when the mean energy grows. *)
Theorem energy_label_monotone (a b : Q) :
  (energy_label_of a = high ↔ (1 # 2 < a)%Q) ∧
  (energy_label_of a = low ↔ (a <= 1 # 4)%Q) ∧
  ((a <= b)%Q →
     tier_rank (energy_label_of a) ≤ tier_rank (energy_label_of b)).
Proof.
  split_and!; [apply energy_label_high | apply energy_label_low |].
  intros Hab.
  pose proof (energy_label_high a) as Ha. pose proof (energy_label_low a) as La.
  pose proof (energy_label_high b) as Hb. pose proof (energy_label_low b) as Lb.
  destruct (energy_label_of a), (energy_label_of b); simpl; try lia.
  - assert (b <= 1 # 4)%Q by tauto.
    assert (¬ (a <= 1 # 4)%Q) by (intros H'; apply La in H'; discriminate).
    lra.
  - assert (b <= 1 # 4)%Q by tauto. assert (1 # 2 < a)%Q by tauto. lra.
  - assert (1 # 2 < a)%Q by tauto.
    assert (¬ (1 # 2 < b)%Q) by (intros H'; apply Hb in H'; discriminate).
    lra.
Qed.

Lemma energy_label_monotone_witness :
  tier_rank (energy_label_of (1 # 10)) ≤ tier_rank (energy_label_of (6 # 10)).
Proof.
  destruct (energy_label_monotone (1 # 10) (6 # 10)) as (_ & _ & H).
  apply H. unfold Qle. simpl. lia.
Defined.

Lemma pyround3_le (raw : Q) (k : Z) :
  (raw <= k # 1000)%Q → (pyround raw 3 <= k # 1000)%Q.
Proof.
  intros Hk.
  destruct (pyround_bounds raw 3
              (Qfloor (raw * inject_Z (Zpos (pow10 3)))) k) as [_ H].
  - apply Qfloor_le.
  - change (pow10 3) with 1000%positive.
    destruct raw as [p d]. unfold Qle in *. simpl in *.
    rewrite ?Pos2Z.inj_mul. lia.
  - exact H.
Qed.

Lemma pyround3_ge (raw : Q) (k : Z) :
  (k # 1000 <= raw)%Q → (k # 1000 <= pyround raw 3)%Q.
Proof.
  intros Hk.
  destruct (pyround_bounds raw 3 k
              (Qceiling (raw * inject_Z (Zpos (pow10 3))))) as [H _].
  - change (pow10 3) with 1000%positive.
    destruct raw as [p d]. unfold Qle in *. simpl in *.
    rewrite ?Pos2Z.inj_mul. lia.
  - apply Qle_ceiling.
  - exact H.
Qed.

Lemma tier_of_rounded (raw : Q) (t : tier) (avg : Q) :
  t = energy_label_of raw → avg = pyround raw 3 →
  ((1 # 2 < avg)%Q → t = high) ∧ (t = high → (1 # 2 <= avg)%Q) ∧
  ((1 # 4 < avg)%Q → t ≠ low) ∧ (t = low → (avg <= 1 # 4)%Q).
Proof.
  intros -> ->.
  pose proof (pyround3_le raw) as Hup. pose proof (pyround3_ge raw) as Hdown.
  pose proof (energy_label_high raw) as Hh.
  pose proof (energy_label_low raw) as Hl.
  split_and!.
  - intros H. apply Hh. apply Qnot_le_lt. intros Hle.
    assert (Hr : (raw <= 500 # 1000)%Q) by lra.
    apply Hup in Hr. lra.
  - intros H. apply Hh in H.
    assert (Hr : (500 # 1000 <= raw)%Q) by lra.
    apply Hdown in Hr. lra.
  - intros H Hlow. apply Hl in Hlow.
    assert (Hr : (raw <= 250 # 1000)%Q) by lra.
    apply Hup in Hr. lra.
  - intros H. apply Hl in H.
    assert (Hr : (raw <= 250 # 1000)%Q) by lra.
    apply Hup in Hr. lra.
Qed.

(** ** Structure of the detected sections *)

(** A property of sections that closing a section preserves, whatever the
    range, is kept by the whole merge. *)
Lemma merge_loop_Forall (P : section → Prop) (n_frames : nat)
    (rms_norm : list Q) :
  (∀ secs fs fe, Forall P secs → Forall P (close_section rms_norm secs fs fe)) →
  ∀ rest i st,
    Forall P (sections st) →
    Forall P (sections (merge_loop n_frames rms_norm rest i st)).
Proof.
  intros Hclose. induction rest as [|l rest IH]; intros i st H; simpl;
    [exact H|].
  apply IH. unfold merge_step. destruct (negb _); [|exact H].
  simpl. apply Hclose. exact H.
Qed.

Lemma detect_sections_Forall (P : section → Prop) (lab : labelling)
    (mfcc : array2) (n_frames : nat) (rms_norm : list Q)
    (secs : list section) :
  (∀ secs fs fe, Forall P secs → Forall P (close_section rms_norm secs fs fe)) →
  detect_sections lab mfcc n_frames rms_norm = Ok secs → Forall P secs.
Proof.
  intros Hclose H. unfold detect_sections in H.
  apply bind_ok in H as (labels & _ & H).
  unfold merge_labels in H. apply bind_ok in H as (l0 & _ & H).
  injection H as <-. apply Hclose.
  apply merge_loop_Forall; [exact Hclose | constructor].
Qed.

Lemma detect_sections_from_rms (lab : labelling) (mfcc : array2)
    (n_frames : nat) (rms_norm : list Q) (secs : list section) :
  detect_sections lab mfcc n_frames rms_norm = Ok secs →
  Forall (section_from_rms rms_norm) secs.
Proof.
  apply detect_sections_Forall. intros ss fs fe H.
  unfold close_section. apply Forall_app. split; [exact H|].
  constructor; [|constructor]. split; reflexivity.
Qed.

Lemma close_section_labelled (rms_norm : list Q) (secs : list section)
    (fs fe : nat) :
  labelled_by_position secs →
  labelled_by_position (close_section rms_norm secs fs fe).
Proof.
  intros H i s Hi. unfold close_section in Hi.
  apply lookup_app_Some in Hi as [Hi | [Hge Hi]].
  - apply H. exact Hi.
  - apply list_lookup_singleton_Some in Hi as [Hz <-]. simpl.
    replace i with (length secs) by lia. reflexivity.
Qed.

Lemma merge_loop_labelled (n_frames : nat) (rms_norm : list Q)
    (rest : list nat) :
  ∀ i st, labelled_by_position (sections st) →
          labelled_by_position
            (sections (merge_loop n_frames rms_norm rest i st)).
Proof.
  induction rest as [|l rest IH]; intros i st H; simpl; [exact H|].
  apply IH. unfold merge_step. destruct (negb _); [|exact H].
  simpl. apply close_section_labelled. exact H.
Qed.

(** X3.  The sections returned by section detection are labelled
    [section_0], [section_1], ... in order, so no two sections of a track
    share a label. *)
Theorem section_labels_by_position (lab : labelling) (mfcc : array2)
    (n_frames : nat) (rms_norm : list Q) (secs : list section) :
  detect_sections lab mfcc n_frames rms_norm = Ok secs →
  (∀ i s, secs !! i = Some s → label s = "section_" +:+ str_of_nat i) ∧
  NoDup (map label secs).
Proof.
  intros H.
  assert (Hl : labelled_by_position secs).
  { unfold detect_sections in H. apply bind_ok in H as (labels & _ & H).
    unfold merge_labels in H. apply bind_ok in H as (l0 & _ & H).
    injection H as <-. apply close_section_labelled.
    apply merge_loop_labelled. intros i s Hi. discriminate. }
  split; [exact Hl|].
  apply NoDup_alt. intros i j lbl Hi Hj.
  rewrite list_lookup_fmap in Hi, Hj.
  destruct (secs !! i) as [s|] eqn:Hsi; [|discriminate].
  destruct (secs !! j) as [t|] eqn:Hsj; [|discriminate].
  simpl in Hi, Hj. injection Hi as Hi. injection Hj as Hj.
  rewrite (Hl _ _ Hsi) in Hi. rewrite (Hl _ _ Hsj) in Hj.
  rewrite <- Hj in Hi. apply String.app_inj in Hi.
  unfold str_of_nat in Hi. apply (inj pretty) in Hi. exact Hi.
Qed.

Lemma detect_sections_windows (lab : labelling) (mfcc : array2)
    (n_frames : nat) (rms_norm : list Q) (secs : list section) :
  detect_sections lab mfcc n_frames rms_norm = Ok secs →
  2 ≤ n_segs_of n_frames ∧ n_segs_of n_frames * seg_hop ≤ n_frames.
Proof.
  unfold detect_sections, fit_predict. rewrite seg_features_length.
  destruct (Nat.ltb_spec (n_segs_of n_frames) 2) as [Hlt | Hge];
    [discriminate|].
  intros _. split; [exact Hge|].
  unfold n_segs_of in *. assert (Hh : seg_hop = 150) by reflexivity.
  rewrite Hh in *. pose proof (Nat.div_mod_eq n_frames 150). lia.
Qed.

Lemma merge_loop_spans (n_frames : nat) (rms_norm : list Q)
    (rest : list nat) :
  ∀ (i : nat) (st : merge_state),
    Forall spans_windows (sections st) →
    section_start st < i →
    (i + length rest - 1) * seg_hop ≤ n_frames →
    let st' := merge_loop n_frames rms_norm rest i st in
    Forall spans_windows (sections st') ∧
    section_start st' < i + length rest.
Proof.
  induction rest as [|l rest IH]; intros i st Hc Hlt Hb; simpl.
  - split; [exact Hc | lia].
  - simpl in Hb.
    assert (Hi : i * seg_hop ≤ n_frames).
    { etransitivity; [|exact Hb]. apply Nat.mul_le_mono_r. lia. }
    specialize (IH (S i) (merge_step n_frames rms_norm st i l)).
    replace (i + S (length rest)) with (S i + length rest) by lia.
    apply IH.
    + unfold merge_step. destruct (negb (l =? current_label st)); [|exact Hc].
      simpl. rewrite Nat.min_l by exact Hi.
      unfold close_section. apply Forall_app. split; [exact Hc|].
      constructor; [|constructor]. split; simpl.
      * exists (section_start st). reflexivity.
      * replace (section_start st * seg_hop + seg_hop)
          with (S (section_start st) * seg_hop) by lia.
        apply Nat.mul_le_mono_r. lia.
    + unfold merge_step. destruct (negb (l =? current_label st)); simpl; lia.
    + etransitivity; [|exact Hb]. apply Nat.mul_le_mono_r. lia.
Qed.

(** X4.  Every section returned by section detection starts on a window
    boundary (a multiple of 150 frames) and is at least one window long; all
    section ends but the last are window boundaries too. *)
Theorem sections_span_windows (lab : labelling) (mfcc : array2)
    (n_frames : nat) (rms_norm : list Q) (secs : list section) :
  (∀ k X, length (lab k X) = length X) →
  detect_sections lab mfcc n_frames rms_norm = Ok secs →
  ∀ i s, secs !! i = Some s →
         (seg_hop | frameStart s) ∧
         frameStart s + seg_hop ≤ frameEnd s ∧
         (S i < length secs → (seg_hop | frameEnd s)).
Proof.
  intros Hlab H.
  destruct (detect_sections_windows _ _ _ _ _ H) as [H2 Hfit].
  destruct (detect_sections_chain _ _ _ _ _ Hlab H) as [Hchain _].
  assert (Hs : Forall spans_windows secs).
  { unfold detect_sections in H. apply bind_ok in H as (labels & Hl & H).
    unfold fit_predict in Hl. destruct (_ || _); [discriminate|].
    injection Hl as <-.
    set (labels := lab (n_clusters_of (n_segs_of n_frames))
                       (seg_features_of mfcc (n_segs_of n_frames))) in *.
    assert (Hlen : length labels = n_segs_of n_frames).
    { unfold labels. rewrite Hlab. apply seg_features_length. }
    destruct labels as [|l0 rest]; [simpl in Hlen; lia|].
    unfold merge_labels, getitem in H. simpl in H. rewrite drop_0 in H.
    injection H as <-. simpl in Hlen.
    set (st0 := {| sections := []; current_label := l0; section_start := 0 |}).
    destruct (merge_loop_spans n_frames rms_norm rest 1 st0) as [Hf Hlt].
    - constructor.
    - simpl. lia.
    - etransitivity; [|exact Hfit]. apply Nat.mul_le_mono_r. lia.
    - unfold close_section. apply Forall_app. split; [exact Hf|].
      constructor; [|constructor]. split; simpl.
      + eexists. reflexivity.
      + fold st0.
        replace (section_start (merge_loop n_frames rms_norm rest 1 st0)
                   * seg_hop + seg_hop)
          with (S (section_start (merge_loop n_frames rms_norm rest 1 st0))
                  * seg_hop) by lia.
        etransitivity; [|exact Hfit]. apply Nat.mul_le_mono_r. lia. }
  intros i s Hi.
  rewrite Forall_forall in Hs.
  destruct (Hs s (list_elem_of_lookup_2 _ _ _ Hi)) as [Hd Hw].
  split_and!; [exact Hd | exact Hw |].
  intros Hnext.
  destruct (lookup_lt_is_Some_2 secs (S i) Hnext) as [t Ht].
  rewrite <- (chain_contiguous _ _ _ _ _ _ Hchain Hi Ht).
  apply (Hs t (list_elem_of_lookup_2 _ _ _ Ht)).
Qed.

Lemma changes_cons (a b : nat) (rest : list nat) :
  changes (a :: b :: rest) = (if a =? b then 0 else 1) + changes (b :: rest).
Proof. reflexivity. Qed.

Lemma merge_loop_count (n_frames : nat) (rms_norm : list Q)
    (rest : list nat) :
  ∀ i st,
    length (sections (merge_loop n_frames rms_norm rest i st))
    = length (sections st) + changes (current_label st :: rest).
Proof.
  induction rest as [|l rest IH]; intros i st.
  - simpl. lia.
  - cbn [merge_loop]. rewrite IH, changes_cons. unfold merge_step.
    destruct (Nat.eqb_spec l (current_label st)) as [-> | Hne].
    + rewrite Nat.eqb_refl. simpl negb. cbv iota. lia.
    + destruct (Nat.eqb_spec (current_label st) l) as [E | _]; [congruence|].
      simpl negb. cbv iota. cbn [sections current_label].
      unfold close_section. rewrite length_app. simpl. lia.
Qed.

Lemma changes_lt_length (labels : list nat) :
  labels ≠ [] → S (changes labels) ≤ length labels.
Proof.
  induction labels as [|a [|b rest] IH]; intros Hne; [congruence | simpl; lia |].
  rewrite changes_cons. specialize (IH ltac:(discriminate)).
  change (length (a :: b :: rest)) with (S (length (b :: rest))).
  destruct (a =? b); lia.
Qed.

Lemma distinct_le_changes (labels : list nat) :
  length (remove_dups labels) ≤ S (changes labels).
Proof.
  induction labels as [|a [|b rest] IH]; [simpl; lia | simpl; lia |].
  rewrite changes_cons.
  change (remove_dups (a :: b :: rest))
    with (if decide_rel elem_of a (b :: rest) then remove_dups (b :: rest)
          else a :: remove_dups (b :: rest)).
  destruct (Nat.eqb_spec a b) as [-> | Hne].
  - destruct (decide_rel elem_of b (b :: rest)) as [_ | Hn].
    + simpl plus. exact IH.
    + exfalso. apply Hn. left.
  - destruct (decide_rel elem_of a (b :: rest)); cbn [length]; lia.
Qed.

(** X5.  Section detection returns one section per run of equal
    consecutive window labels: one more than the number of label changes;
    hence at least as many sections as there are distinct labels, and at
    most as many as there are windows. *)
Theorem section_count (lab : labelling) (mfcc : array2)
    (n_frames : nat) (rms_norm : list Q) (secs : list section) :
  (∀ k X, length (lab k X) = length X) →
  detect_sections lab mfcc n_frames rms_norm = Ok secs →
  let labels := lab (n_clusters_of (n_segs_of n_frames))
                    (seg_features_of mfcc (n_segs_of n_frames)) in
  length secs = S (changes labels) ∧
  length (remove_dups labels) ≤ length secs ∧
  length secs ≤ n_segs_of n_frames.
Proof.
  intros Hlab H labels.
  assert (Hlen : length labels = n_segs_of n_frames).
  { unfold labels. rewrite Hlab. apply seg_features_length. }
  assert (Hc : length secs = S (changes labels)).
  { unfold detect_sections in H. apply bind_ok in H as (labels' & Hl & H).
    unfold fit_predict in Hl. destruct (_ || _); [discriminate|].
    injection Hl as <-. fold labels in H.
    destruct labels as [|l0 rest].
    - discriminate.
    - unfold merge_labels, getitem in H. simpl in H. rewrite drop_0 in H.
      injection H as <-. unfold close_section. rewrite length_app.
      rewrite merge_loop_count. simpl. lia. }
  split_and!.
  - exact Hc.
  - rewrite Hc. apply distinct_le_changes.
  - rewrite Hc, <- Hlen. apply changes_lt_length.
    intros Hn. rewrite Hn in Hlen. simpl in Hlen.
    pose proof (n_segs_of_fits n_frames). lia.
Qed.

(** ** Energy of the sections *)

Lemma Qsum_from_bounds (arr : list Q) :
  Forall unit_interval arr →
  ∀ acc, (acc <= fold_left Qplus arr acc)%Q ∧
         (fold_left Qplus arr acc
            <= acc + inject_Z (Z.of_nat (length arr)))%Q.
Proof.
  induction 1 as [|v arr [Hv0 Hv1] _ IH]; intros acc; simpl fold_left.
  - change (inject_Z (Z.of_nat (length (@nil Q)))) with 0%Q.
    split; [apply Qle_refl | rewrite Qplus_0_r; apply Qle_refl].
  - destruct (IH (acc + v)%Q) as [H1 H2]. split; [lra|].
    eapply Qle_trans; [exact H2|].
    change (length (v :: arr)) with (S (length arr)).
    rewrite Nat2Z.inj_succ, <- Z.add_1_r, inject_Z_plus.
    change (inject_Z 1) with 1%Q. lra.
Qed.

Lemma mean_unit (arr : list Q) :
  arr ≠ [] → Forall unit_interval arr → unit_interval (mean arr).
Proof.
  intros Hne HP. unfold mean, Qsum.
  destruct (Qsum_from_bounds arr HP 0) as [H0 H1].
  assert (Hpos : (0 < inject_Z (Z.of_nat (length arr)))%Q).
  { change 0%Q with (inject_Z 0). rewrite <- Zlt_Qlt.
    destruct arr; [congruence | simpl; lia]. }
  split.
  - apply Qle_shift_div_l; [exact Hpos | lra].
  - apply Qle_shift_div_r; [exact Hpos | lra].
Qed.

Lemma avg_energy_unit (rms_norm : list Q) (fs fe : nat) :
  Forall unit_interval rms_norm → fe ≤ length rms_norm →
  unit_interval (avg_energy_of rms_norm fs fe).
Proof.
  intros HP Hfe. unfold avg_energy_of.
  destruct (Nat.ltb_spec fs fe) as [Hlt | Hge]; [|split; lra].
  apply mean_unit.
  - intros Hnil. apply (f_equal length) in Hnil.
    unfold slice in Hnil. rewrite length_take, length_drop in Hnil.
    simpl in Hnil. lia.
  - unfold slice. apply Forall_take, Forall_drop. exact HP.
Qed.

Lemma align_streams_rms (x : extracted) (n : nat) (a : aligned) :
  align_streams x n = Ok a →
  ∃ norm, normalize (x_rms x) = Ok norm ∧ pad_or_trim norm n = Ok (a_rms a).
Proof.
  intros H. unfold align_streams in H.
  apply bind_ok in H as (n1 & Hn1 & H). apply bind_ok in H as (n2 & Hn2 & H).
  apply bind_ok in H as (n3 & Hn3 & H). apply bind_ok in H as (n4 & Hn4 & H).
  apply bind_ok in H as (n5 & Hn5 & H). apply bind_ok in H as (n6 & Hn6 & H).
  apply bind_ok in H as (n7 & Hn7 & H). apply bind_ok in H as (kr & Hkr & H).
  apply bind_ok in H as (n8 & Hn8 & H).
  apply bind_ok in H as (s1 & Hs1 & H). apply bind_ok in H as (s2 & Hs2 & H).
  apply bind_ok in H as (s3 & Hs3 & H). apply bind_ok in H as (s4 & Hs4 & H).
  apply bind_ok in H as (s5 & Hs5 & H). apply bind_ok in H as (s6 & Hs6 & H).
  apply bind_ok in H as (s7 & Hs7 & H). apply bind_ok in H as (c' & Hc' & H).
  apply bind_ok in H as (k' & Hk' & H). apply bind_ok in H as (s8 & Hs8 & H).
  injection H as <-. simpl. exists n1. split; assumption.
Qed.

(** X6.  In a returned analysis every section's [avgEnergy] lies in
    [[0, 1]], and its tier is the one its stored [avgEnergy] gives with the
    thresholds 0.5 and 0.25, except that a stored value equal to a threshold
    may carry the tier above (the tier is decided before rounding). *)
Theorem section_energies (lab : labelling) (name : string) (x : extracted)
    (out : output) :
  (∀ k X, length (lab k X) = length X) →
  analyze_decoded lab name x = Ok out →
  Forall (fun s => unit_interval (avgEnergy s) ∧ tier_agrees s)
         (m_sections (o_meta out)).
Proof.
  intros Hlab H. unfold analyze_decoded in H.
  apply bind_ok in H as (a & Ha & H). apply bind_ok in H as (secs & Hs & H).
  apply bind_ok in H as (frames & _ & H). injection H as <-. simpl.
  pose proof (align_streams_range _ _ _ Ha) as (Hrange & _).
  destruct (align_streams_rms _ _ _ Ha) as (norm & _ & Hpad).
  destruct (pad_or_trim_reconciled _ _ _ Hpad) as (Hlen & _).
  destruct (detect_sections_chain _ _ _ _ _ Hlab Hs) as [Hchain _].
  pose proof (detect_sections_from_rms _ _ _ _ _ Hs) as Hfrom.
  apply Forall_lookup. intros i s Hi.
  pose proof (Forall_lookup_1 _ _ _ _ Hfrom Hi) as [He Havg].
  destruct (chain_lookup _ _ _ _ _ Hchain Hi) as (_ & _ & Hend).
  split.
  - rewrite Havg. apply pyround_unit. apply avg_energy_unit; [exact Hrange|].
    rewrite Hlen. exact Hend.
  - exact (tier_of_rounded _ _ _ He Havg).
Qed.

Lemma section_energies_witness :
  ∃ out, analyze_decoded block_labelling "gd77-05-08s2t08.mp3"
           (sample_track 220600) = Ok out ∧
         Forall (fun s => unit_interval (avgEnergy s) ∧ tier_agrees s)
                (m_sections (o_meta out)).
Proof.
  destruct sample_analysis as (out & a & Hout & _).
  exists out. split; [exact Hout|].
  exact (section_energies _ _ _ _ block_labelling_length Hout).
Defined.

Lemma sample_sections :
  ∃ secs, detect_sections block_labelling (x_mfcc (sample_track 0)) 450
            [0; 1]%Q = Ok secs.
Proof.
  apply detect_sections_ok; [apply block_labelling_length|].
  unfold seg_hop, analyze.FPS. lia.
Qed.

Lemma section_labels_by_position_witness :
  ∃ secs, detect_sections block_labelling (x_mfcc (sample_track 0)) 450
            [0; 1]%Q = Ok secs ∧
          NoDup (map label secs).
Proof.
  destruct sample_sections as [secs Hs]. exists secs. split; [exact Hs|].
  exact (proj2 (section_labels_by_position _ _ _ _ _ Hs)).
Defined.

Lemma sections_span_windows_witness :
  ∃ secs, detect_sections block_labelling (x_mfcc (sample_track 0)) 450
            [0; 1]%Q = Ok secs ∧
          ∀ i s, secs !! i = Some s →
                 (seg_hop | frameStart s) ∧
                 frameStart s + seg_hop ≤ frameEnd s ∧
                 (S i < length secs → (seg_hop | frameEnd s)).
Proof.
  destruct sample_sections as [secs Hs]. exists secs. split; [exact Hs|].
  exact (sections_span_windows _ _ _ _ _ block_labelling_length Hs).
Defined.

Lemma section_count_witness :
  ∃ secs, detect_sections block_labelling (x_mfcc (sample_track 0)) 450
            [0; 1]%Q = Ok secs ∧
          length secs ≤ n_segs_of 450.
Proof.
  destruct sample_sections as [secs Hs]. exists secs. split; [exact Hs|].
  exact (proj2 (proj2 (section_count _ _ _ _ _ block_labelling_length Hs))).
Defined.

(** ** Band energy *)


















(** ** Beat flags *)

Lemma filter_length_Forall2 {A B} (R : A → B → Prop) (P : A → Prop)
    (Q' : B → Prop) `{∀ x, Decision (P x)} `{∀ y, Decision (Q' y)}
    (xs : list A) (ys : list B) :
  Forall2 R xs ys → (∀ x y, R x y → (P x ↔ Q' y)) →
  length (filter P xs) = length (filter Q' ys).
Proof.
  intros HF HR. induction HF as [|x y xs ys Hxy _ IH]; [reflexivity|].
  rewrite !filter_cons. specialize (HR x y Hxy).
  destruct (decide (P x)), (decide (Q' y)); simpl; try tauto; lia.
Qed.

Lemma build_frame_beat (a : aligned) (beat_set : list nat) (i : nat)
    (f : frame) :
  build_frame a beat_set i = Ok f → (f_beat f = true ↔ i ∈ beat_set).
Proof.
  unfold build_frame. intros H.
  apply bind_ok in H as (v1 & _ & H). apply bind_ok in H as (v2 & _ & H).
  apply bind_ok in H as (v3 & _ & H). apply bind_ok in H as (v4 & _ & H).
  apply bind_ok in H as (v5 & _ & H). apply bind_ok in H as (v6 & _ & H).
  apply bind_ok in H as (v7 & _ & H). apply bind_ok in H as (ch & _ & H).
  apply bind_ok in H as (co & _ & H). apply bind_ok in H as (v8 & _ & H).
  injection H as <-. simpl. apply bool_decide_eq_true.
Qed.

(** X8.  In a returned analysis frame [i] is flagged as a beat exactly
    when [i] is one of the tracked beat frames; beat frames at or beyond the
    frame count are dropped and repeated ones count once, so the number of
    flagged frames is the number of distinct beat frames below the frame
    count. *)
Theorem beat_flags (lab : labelling) (name : string) (x : extracted)
    (out : output) :
  analyze_decoded lab name x = Ok out →
  (∀ i f, o_frames out !! i = Some f →
          (f_beat f = true ↔ i ∈ x_beat_frames x)) ∧
  length (filter (fun f => f_beat f = true) (o_frames out))
  = length (filter (fun b => b < n_frames_of x)
              (remove_dups (x_beat_frames x))).
Proof.
  unfold analyze_decoded. intros H.
  apply bind_ok in H as (a & _ & H). apply bind_ok in H as (secs & _ & H).
  apply bind_ok in H as (frames & Hf & H). injection H as <-. simpl.
  apply mapM_Forall2 in Hf. split.
  - intros i f Hi.
    destruct (Forall2_lookup_r _ _ _ _ _ Hf Hi) as (i' & Hi' & Hb).
    apply lookup_seq in Hi' as [-> _]. simpl in Hb.
    eapply build_frame_beat. exact Hb.
  - rewrite <- (filter_length_Forall2
                  (fun i f => build_frame a (x_beat_frames x) i = Ok f)
                  (fun i => i ∈ x_beat_frames x)
                  (fun f => f_beat f = true) _ _ Hf).
    + apply Permutation_length. apply NoDup_Permutation.
      * apply NoDup_filter. apply NoDup_seq.
      * apply NoDup_filter. apply NoDup_remove_dups.
      * intros b. rewrite !list_elem_of_filter, elem_of_seq,
          elem_of_remove_dups. split; intros []; split; auto; lia.
    + intros i f Hb. symmetry. eapply build_frame_beat. exact Hb.
Qed.

Lemma beat_flags_witness :
  ∃ out, analyze_decoded block_labelling "gd77-05-08s2t08.mp3"
           (sample_track 220600) = Ok out ∧
         length (filter (fun f => f_beat f = true) (o_frames out)) = 3.
Proof.
  destruct sample_analysis as (out & a & Hout & _).
  exists out. split; [exact Hout|].
  rewrite (proj2 (beat_flags _ _ _ _ Hout)). reflexivity.
Defined.

(** ** Effects of the single-track pipeline *)




(** ** More on the batch runner *)

Lemma analyze_decoded_min_frames (lab : labelling) (name : string)
    (x : extracted) (out : output) :
  analyze_decoded lab name x = Ok out →
  2 * seg_hop ≤ totalFrames (o_meta out).
Proof.
  intros H. destruct (analyze_decoded_frames _ _ _ _ H) as [_ ->].
  unfold analyze_decoded in H.
  apply bind_ok in H as (a & _ & H). apply bind_ok in H as (secs & Hs & _).
  destruct (detect_sections_windows _ _ _ _ _ Hs) as [H2 Hfit].
  etransitivity; [|exact Hfit]. apply Nat.mul_le_mono_r. exact H2.
Qed.


Lemma run_songs_fresh (lab : labelling) (dir : string) (ss : list song) :
  ∀ st st',
    run_songs lab false dir ss st = Ok st' →
    (∀ s, s ∈ ss → is_Some (audio (files st) !! audio_path_of dir s) →
          ∃ x out,
            audio (files st) !! audio_path_of dir s = Some (Decodes x) ∧
            analyze_decoded lab (path_name (audio_path_of dir s)) x = Ok out) ∧
    ∃ es, timeline_tracks st' = timeline_tracks st ++ es ∧
          Forall (fun e => missing e = false → 2 * seg_hop ≤ e_totalFrames e)
                 es.
Proof.
  induction ss as [|s ss IH]; intros st st' H; simpl in H.
  - injection H as <-. split; [intros s Hs; inversion Hs|].
    exists []. rewrite app_nil_r. split; [reflexivity | constructor].
  - apply bind_ok in H as (st1 & H1 & H).
    destruct (IH _ _ H) as (Hdec & es & Hes & Hmin).
    destruct (exists_audio (files st) (audio_path_of dir s)) eqn:He.
    + destruct (process_song_present _ _ _ _ _ _ He H1)
        as (tf & d & w1 & tr1 & Hm & ->).
      unfold track_metadata in Hm. simpl in Hm.
      apply bind_ok in Hm as ([out w2] & Ha & Hm). simpl in Hm.
      injection Hm as <- <- <- <-.
      apply analyze_track_inv in Ha as (Hau & _ & x & Hx & Hout).
      simpl in *. split.
      * intros s' Hs' Hsome. apply elem_of_cons in Hs' as [-> | Hs'].
        -- exists x, out. split; assumption.
        -- rewrite <- Hau. apply Hdec; [exact Hs' | rewrite Hau; exact Hsome].
      * exists (track_entry s (global_offset st) (totalFrames (o_meta out))
                  :: es).
        rewrite Hes, <- app_assoc. split; [reflexivity|].
        constructor; [|exact Hmin]. intros _. simpl.
        eapply analyze_decoded_min_frames. exact Hout.
    + rewrite (process_song_missing _ _ _ _ _ He) in H1. injection H1 as <-.
      simpl in *. split.
      * intros s' Hs' Hsome. apply elem_of_cons in Hs' as [-> | Hs'].
        -- apply exists_audio_false in He. rewrite He in Hsome.
           destruct Hsome. discriminate.
        -- apply Hdec; assumption.
      * exists (missing_entry s (global_offset st) :: es).
        rewrite Hes, <- app_assoc. split; [reflexivity|].
        constructor; [|exact Hmin]. intros Hm. discriminate.
Qed.

(** X10.  A batch run without [--resume] returns a timeline only if every
    song whose audio file exists was decoded and analysed: one undecodable
    or too short track aborts the whole run.  Hence every entry that is not
    flagged missing has at least [2 * 150] frames. *)
Theorem fresh_run_analyses_all (lab : labelling) (dir : string)
    (sl : setlist) (w w' : world) (tl : timeline) (tr : list event) :
  main lab false dir sl w = Ok (tl, w', tr) →
  (∀ s, s ∈ songs sl → exists_audio w (audio_path_of dir s) = true →
        ∃ x out,
          audio w !! audio_path_of dir s = Some (Decodes x) ∧
          analyze_decoded lab (path_name (audio_path_of dir s)) x = Ok out) ∧
  (∀ i e, tracks tl !! i = Some e → missing e = false →
          2 * seg_hop ≤ e_totalFrames e).
Proof.
  intros H. apply main_inv in H as (st & Hrun & -> & _ & _).
  destruct (run_songs_fresh _ _ _ _ _ Hrun) as (Hdec & es & Hes & Hmin).
  simpl in *. split.
  - intros s Hs He. apply Hdec; [exact Hs|].
    apply exists_audio_true. exact He.
  - intros i e Hi. rewrite Hes in Hi.
    exact (Forall_lookup_1 _ _ _ _ Hmin Hi).
Qed.



Lemma sample_fresh_run :
  ∃ tl w' tr,
    main block_labelling false "audio" sample_setlist sample_world
      = Ok (tl, w', tr) ∧
    map e_totalFrames (tracks tl) = [301; 0; 600].
Proof.
  assert (H : ∃ tl tr,
            timeline_and_trace
              (main block_labelling false "audio" sample_setlist sample_world)
            = Ok (tl, tr) ∧
            map e_totalFrames (tracks tl) = [301; 0; 600]).
  { eexists _, _. split; [vm_compute; reflexivity | reflexivity]. }
  destruct H as (tl & tr & H & Hfr).
  destruct (main block_labelling false "audio" sample_setlist sample_world)
    as [[[tl' w'] tr']|e]; [|discriminate].
  simpl in H. injection H as -> ->.
  exists tl, w', tr. split; [reflexivity | exact Hfr].
Qed.

Lemma fresh_run_analyses_all_witness :
  ∃ tl, map e_totalFrames (tracks tl) = [301; 0; 600] ∧
        ∀ i e, tracks tl !! i = Some e → missing e = false →
               2 * seg_hop ≤ e_totalFrames e.
Proof.
  destruct sample_fresh_run as (tl & w' & tr & Hrun & Hfr).
  exists tl. split; [exact Hfr|].
  exact (proj2 (fresh_run_analyses_all _ _ _ _ _ _ _ Hrun)).
Defined.


(** ** Order of the timeline entries *)

Section ProcessedOrder.
Context (au : gmap string audio_file) (resume : bool) (dir : string).

Lemma processed_bounds off ss es evs off' i e :
  processed au resume dir off ss es evs off' →
  es !! i = Some e →
  off ≤ globalFrameStart e ∧ globalFrameStart e ≤ globalFrameEnd e ∧
  globalFrameEnd e ≤ off'.
Proof.
  intros H. revert i.
  induction H as [| ? ? ? ? ? ? ? H IH | ? ? ? ? ? ? ? ? ? ? H IH];
    intros i Hi.
  - discriminate.
  - pose proof (processed_monotone _ _ _ _ _ _ _ _ H).
    destruct i as [|i]; simpl in Hi.
    + injection Hi as <-. simpl. lia.
    + apply IH in Hi. lia.
  - pose proof (processed_monotone _ _ _ _ _ _ _ _ H).
    destruct i as [|i]; simpl in Hi.
    + injection Hi as <-. simpl. lia.
    + apply IH in Hi. lia.
Qed.

Lemma processed_disjoint off ss es evs off' i j a b :
  processed au resume dir off ss es evs off' →
  i < j → es !! i = Some a → es !! j = Some b →
  globalFrameEnd a ≤ globalFrameStart b.
Proof.
  intros H. revert i j.
  induction H as [| ? ? ? ? ? ? ? H IH | ? ? ? ? ? ? ? ? ? ? H IH];
    intros i j Hij Ha Hb.
  - discriminate.
  - destruct j as [|j]; [lia|]. simpl in Hb.
    destruct i as [|i]; simpl in Ha.
    + injection Ha as <-. simpl.
      apply (processed_bounds _ _ _ _ _ _ _ H Hb).
    + eapply (IH i j); [lia | exact Ha | exact Hb].
  - destruct j as [|j]; [lia|]. simpl in Hb.
    destruct i as [|i]; simpl in Ha.
    + injection Ha as <-. simpl.
      apply (processed_bounds _ _ _ _ _ _ _ H Hb).
    + eapply (IH i j); [lia | exact Ha | exact Hb].
Qed.

End ProcessedOrder.

(** X12.  In a returned timeline the frame ranges of the entries lie in
    [[0, totalFrames]] in setlist order without overlap: an entry ends no
    later than any later entry starts, so global offsets never decrease. *)
Theorem timeline_ranges_ordered (lab : labelling) (resume : bool)
    (dir : string) (sl : setlist) (w w' : world) (tl : timeline)
    (tr : list event) :
  main lab resume dir sl w = Ok (tl, w', tr) →
  (∀ i e, tracks tl !! i = Some e →
          globalFrameStart e ≤ globalFrameEnd e ∧
          globalFrameEnd e ≤ t_totalFrames tl) ∧
  (∀ i j a b, i < j → tracks tl !! i = Some a → tracks tl !! j = Some b →
              globalFrameEnd a ≤ globalFrameStart b) ∧
  length (tracks tl) = length (songs sl).
Proof.
  intros H. apply main_inv in H as (st & Hrun & -> & _ & _).
  apply run_songs_processed in Hrun as (_ & es & evs & Hes & _ & Hp).
  simpl in Hes, Hp. simpl. rewrite Hes. split_and!.
  - intros i e Hi. destruct (processed_bounds _ _ _ _ _ _ _ _ _ _ Hp Hi).
    lia.
  - intros i j a b. eapply processed_disjoint. exact Hp.
  - pose proof (processed_ids _ _ _ _ _ _ _ _ Hp) as Hids.
    apply (f_equal length) in Hids. rewrite !length_map in Hids. exact Hids.
Qed.

Lemma timeline_ranges_ordered_witness :
  ∃ tl, map e_totalFrames (tracks tl) = [301; 0; 600] ∧
        length (tracks tl) = length (songs sample_setlist).
Proof.
  destruct sample_fresh_run as (tl & w' & tr & Hrun & Hfr).
  exists tl. split; [exact Hfr|].
  exact (proj2 (proj2 (timeline_ranges_ordered _ _ _ _ _ _ _ _ Hrun))).
Defined.

(** ** The timeline and the persisted analyses *)




(** ** Command line of the batch runner *)

Lemma flag_prefix (v : string) :
  String.prefix "--audio-dir=" ("--audio-dir=" +:+ v) = true.
Proof. destruct v; reflexivity. Qed.

Lemma flag_value (v : string) :
  getitem (analyze_show_args.split_eq ("--audio-dir=" +:+ v)) 1 = Ok v.
Proof. vm_compute. reflexivity. Qed.

Lemma prefix_app (s1 s2 : string) :
  String.prefix s1 s2 = true → ∃ r, s2 = s1 +:+ r.
Proof.
  revert s2. induction s1 as [|c s1 IH]; intros s2 H.
  - exists s2. reflexivity.
  - destruct s2 as [|c' s2]; [discriminate|]. simpl in H.
    destruct (ascii_dec c c') as [<- |]; [|discriminate].
    destruct (IH _ H) as [r ->]. exists r. reflexivity.
Qed.

Lemma parse_step_flag (cli : option string) (v : string) :
  analyze_show_args.parse_step cli ("--audio-dir=" +:+ v) = Ok (Some v).
Proof.
  unfold analyze_show_args.parse_step.
  rewrite flag_prefix, flag_value. reflexivity.
Qed.

Lemma parse_audio_dir_app (args1 args2 : list string)
    (cli cli' : option string) :
  analyze_show_args.parse_audio_dir args1 cli = Ok cli' →
  analyze_show_args.parse_audio_dir (args1 ++ args2) cli
  = analyze_show_args.parse_audio_dir args2 cli'.
Proof.
  revert cli. induction args1 as [|a args1 IH]; intros cli H; simpl in *.
  - injection H as <-. reflexivity.
  - apply bind_ok in H as (c1 & H1 & H). rewrite H1. simpl. apply IH. exact H.
Qed.

Lemma parse_audio_dir_total (args : list string) (cli : option string) :
  ∃ cli', analyze_show_args.parse_audio_dir args cli = Ok cli'.
Proof.
  revert cli. induction args as [|a args IH]; intros cli; simpl; [eauto|].
  unfold analyze_show_args.parse_step.
  destruct (String.prefix "--audio-dir=" a) eqn:E; simpl; [|apply IH].
  apply prefix_app in E as [r ->]. rewrite flag_value. simpl. apply IH.
Qed.

Lemma parse_audio_dir_unflagged (args : list string) (cli : option string) :
  Forall (fun a => String.prefix "--audio-dir=" a = false) args →
  analyze_show_args.parse_audio_dir args cli = Ok cli.
Proof.
  induction 1 as [|a args Ha _ IH]; simpl; [reflexivity|].
  unfold analyze_show_args.parse_step. rewrite Ha. simpl. exact IH.
Qed.

(** X14.  Arguments of the batch runner: the last argument of the form
    [--audio-dir=TEXT] decides the audio directory, with everything after
    the first [=] as its text, and overrides the setlist; without such an
    argument the setlist's [audioDir] is used, under the data directory when
    it is relative, and the public audio directory when the setlist has
    none. *)
Theorem audio_dir_last_flag_wins (script : string) (before after : list string)
    (v : string) (setlist_audioDir : option string) :
  Forall (fun a => String.prefix "--audio-dir=" a = false) after →
  (∃ args, analyze_show_args.parse_argv
             (script :: before ++ ("--audio-dir=" +:+ v) :: after) = Ok args ∧
           analyze_show_args.cli_audio_dir args = Some v ∧
           analyze_show_args.resolve_audio_dir
             (analyze_show_args.cli_audio_dir args) setlist_audioDir
           = analyze_show_args.Given v) ∧
  (∃ args, analyze_show_args.parse_argv (script :: after) = Ok args ∧
           analyze_show_args.cli_audio_dir args = None ∧
           analyze_show_args.resolve_audio_dir
             (analyze_show_args.cli_audio_dir args) setlist_audioDir
           = match setlist_audioDir with
             | Some text =>
                 if analyze_show_args.is_absolute text
                 then analyze_show_args.Given text
                 else analyze_show_args.UnderDataDir text
             | None => analyze_show_args.PublicAudioDir
             end).
Proof.
  intros Hafter. split.
  - destruct (parse_audio_dir_total before None) as [c Hc].
    eexists. split_and!.
    + unfold analyze_show_args.parse_argv. simpl drop. rewrite drop_0.
      rewrite (parse_audio_dir_app _ _ _ _ Hc).
      cbn [analyze_show_args.parse_audio_dir]. rewrite parse_step_flag.
      cbn [Py.bind]. rewrite (parse_audio_dir_unflagged _ _ Hafter).
      cbn [Py.bind]. reflexivity.
    + reflexivity.
    + reflexivity.
  - eexists. split_and!.
    + unfold analyze_show_args.parse_argv. simpl drop. rewrite drop_0.
      rewrite (parse_audio_dir_unflagged _ _ Hafter). cbn [Py.bind].
      reflexivity.
    + reflexivity.
    + reflexivity.
Qed.

Lemma audio_dir_last_flag_wins_witness :
  ∃ args, analyze_show_args.parse_argv
            ["analyze_show.py"; "--audio-dir=/a"; "--resume";
             "--audio-dir=/mnt/x=y"; "-v"] = Ok args ∧
          analyze_show_args.cli_audio_dir args = Some "/mnt/x=y".
Proof.
  destruct (audio_dir_last_flag_wins "analyze_show.py"
              ["--audio-dir=/a"; "--resume"] ["-v"] "/mnt/x=y" None)
    as [(args & H & Hd & _) _].
  - repeat constructor.
  - exists args. split; [exact H | exact Hd].
Defined.

(** ** Key estimation of the analysis sidecar *)

Lemma scanned_refl (st : analyze_audio.best) : scanned st [] st.
Proof.
  split_and!; [apply Qle_refl | | left; reflexivity].
  intros k c H. apply elem_of_nil in H. destruct H.
Qed.

Lemma scanned_app (st st1 st2 : analyze_audio.best)
    (cs1 cs2 : list (string * option Q)) :
  scanned st cs1 st1 → scanned st1 cs2 st2 → scanned st (cs1 ++ cs2) st2.
Proof.
  intros (Hle1 & Hall1 & H1) (Hle2 & Hall2 & H2). split_and!.
  - eapply Qle_trans; eassumption.
  - intros k c Hin. apply elem_of_app in Hin as [Hin | Hin].
    + eapply Qle_trans; [exact (Hall1 _ _ Hin) | exact Hle2].
    + exact (Hall2 _ _ Hin).
  - destruct H2 as [-> | (j2 & Hj2 & Hlt2 & Hbefore2)].
    + destruct H1 as [-> | (j1 & Hj1 & Hlt1 & Hbefore1)]; [left; reflexivity|].
      right. exists j1. split_and!; [|exact Hlt1|].
      * apply lookup_app_l_Some. exact Hj1.
      * intros j' k c Hj' Hl.
        assert (Hlen : j1 < length cs1) by (eapply lookup_lt_Some; exact Hj1).
        rewrite lookup_app_l in Hl by lia.
        eapply Hbefore1; eassumption.
    + right. exists (length cs1 + j2). split_and!.
      * rewrite lookup_app_r by lia.
        replace (length cs1 + j2 - length cs1) with j2 by lia. exact Hj2.
      * eapply Qle_lt_trans; eassumption.
      * intros j' k c Hj' Hl.
        destruct (decide (j' < length cs1)) as [Hlt | Hge].
        -- rewrite lookup_app_l in Hl by exact Hlt.
           eapply Qle_lt_trans; [|exact Hlt2].
           eapply Hall1. eapply list_elem_of_lookup_2. exact Hl.
        -- rewrite lookup_app_r in Hl by lia.
           eapply (Hbefore2 (j' - length cs1)); [lia | exact Hl].
Qed.

Lemma improve_scanned (st : analyze_audio.best) (corr : option Q) (i : nat)
    (mode : string) :
  i < 12 →
  ∃ st', analyze_audio.improve st corr i mode = Ok st' ∧
         scanned st [(nth i analyze_audio.note_names "" +:+ " " +:+ mode, corr)]
                 st'.
Proof.
  intros Hi. unfold analyze_audio.improve.
  destruct corr as [c|]; cycle 1.
  { exists st. split; [reflexivity|]. split_and!.
    - apply Qle_refl.
    - intros k c H. apply list_elem_of_singleton in H. discriminate.
    - left. reflexivity. }
  destruct (Qltb (analyze_audio.best_corr st) c) eqn:E.
  - apply Qltb_true in E.
    assert (Hn : analyze_audio.note_names !! i
                 = Some (nth i analyze_audio.note_names "")).
    { destruct (lookup_lt_is_Some_2 analyze_audio.note_names i) as [n Hn];
        [simpl; lia|].
      rewrite (nth_lookup_Some _ _ "" _ Hn). exact Hn. }
    unfold getitem. rewrite Hn. cbn [Py.bind].
    eexists. split; [reflexivity|]. split_and!; simpl.
    + apply Qlt_le_weak. exact E.
    + intros k c' H. apply list_elem_of_singleton in H.
      injection H as -> ->. apply Qle_refl.
    + right. exists 0. split_and!; [reflexivity | exact E |].
      intros j' k c' Hj'. lia.
  - apply Qltb_false in E.
    exists st. split; [reflexivity|]. split_and!.
    + apply Qle_refl.
    + intros k c' H. apply list_elem_of_singleton in H.
      injection H as -> ->. exact E.
    + left. reflexivity.
Qed.

Lemma key_step_scanned (corr : analyze_audio.correlation)
    (chroma_vector : list Q) (st : analyze_audio.best) (i : nat) :
  length chroma_vector = 12 → i < 12 →
  ∃ st', analyze_audio.key_step corr chroma_vector st i = Ok st' ∧
         scanned st
           (let rotated := analyze_audio.roll_back chroma_vector i in
            let name := nth i analyze_audio.note_names "" in
            [(name +:+ " major", corr rotated analyze_audio.major_profile);
             (name +:+ " minor", corr rotated analyze_audio.minor_profile)])
           st'.
Proof.
  intros Hlen Hi. unfold analyze_audio.key_step, analyze_audio.corrcoef.
  assert (Hr : length (analyze_audio.roll_back chroma_vector i) = 12).
  { unfold analyze_audio.roll_back. rewrite length_rotate. exact Hlen. }
  rewrite !bool_decide_eq_true_2 by (rewrite Hr; reflexivity).
  cbn [Py.bind].
  destruct (improve_scanned st
              (corr (analyze_audio.roll_back chroma_vector i)
                    analyze_audio.major_profile) i "major" Hi)
    as (st1 & -> & H1).
  cbn [Py.bind].
  destruct (improve_scanned st1
              (corr (analyze_audio.roll_back chroma_vector i)
                    analyze_audio.minor_profile) i "minor" Hi)
    as (st2 & -> & H2).
  exists st2. split; [reflexivity|].
  exact (scanned_app _ _ _ [_] [_] H1 H2).
Qed.

Lemma key_loop_scanned (corr : analyze_audio.correlation)
    (chroma_vector : list Q) (range : list nat) (st : analyze_audio.best) :
  length chroma_vector = 12 → Forall (fun i => i < 12) range →
  ∃ st', analyze_audio.key_loop corr chroma_vector range st = Ok st' ∧
         scanned st
           (flat_map
              (fun i =>
                 let rotated := analyze_audio.roll_back chroma_vector i in
                 let name := nth i analyze_audio.note_names "" in
                 [(name +:+ " major",
                   corr rotated analyze_audio.major_profile);
                  (name +:+ " minor",
                   corr rotated analyze_audio.minor_profile)])
              range)
           st'.
Proof.
  intros Hlen Hrange. revert st.
  induction Hrange as [|i range Hi _ IH]; intros st.
  - exists st. split; [reflexivity | apply scanned_refl].
  - cbn [analyze_audio.key_loop flat_map].
    destruct (key_step_scanned corr chroma_vector st i Hlen Hi)
      as (st1 & -> & H1).
    cbn [Py.bind].
    destruct (IH st1) as (st2 & -> & H2).
    exists st2. split; [reflexivity|].
    exact (scanned_app _ _ _ _ _ H1 H2).
Qed.

(** X15.  For a chroma vector of twelve values, [estimate_key] returns one
    of the 24 key names.  It is the first key, in the order C major, C minor,
    C# major, ..., B minor, whose correlation is the largest one; keys whose
    correlation is [nan] are passed over, and the answer is "C major" when
    no correlation exceeds -2 (all are [nan]). *)
Theorem estimate_key_first_maximum (corr : analyze_audio.correlation)
    (chroma_vector : list Q) :
  length chroma_vector = 12 →
  ∃ key, analyze_audio.estimate_key corr chroma_vector = Ok key ∧
    key ∈ (key_candidates corr chroma_vector).*1 ∧
    ((key = "C major" ∧
      ∀ k c, (k, Some c) ∈ key_candidates corr chroma_vector →
             (c <= -2)%Q)
     ∨
     ∃ j c, key_candidates corr chroma_vector !! j = Some (key, Some c) ∧
            (-2 < c)%Q ∧
            ∀ j' k c', key_candidates corr chroma_vector !! j'
                       = Some (k, Some c') →
                       (c' <= c)%Q ∧ (j' < j → (c' < c)%Q)).
Proof.
  intros Hlen. unfold analyze_audio.estimate_key.
  destruct (key_loop_scanned corr chroma_vector (seq 0 12)
              {| analyze_audio.best_corr := -2;
                 analyze_audio.best_key := "C major" |} Hlen)
    as (st & -> & Hle & Hall & Hst).
  { apply Forall_forall. intros i Hi. apply elem_of_seq in Hi. lia. }
  cbn [Py.bind].
  exists (analyze_audio.best_key st). split; [reflexivity|].
  destruct Hst as [-> | (j & Hj & Hlt & Hbefore)].
  - split.
    + apply list_elem_of_lookup. exists 0. reflexivity.
    + left. split; [reflexivity|]. exact Hall.
  - split.
    + apply list_elem_of_fmap. eexists (_, _). split; [reflexivity|].
      eapply list_elem_of_lookup_2. exact Hj.
    + right. exists j, (analyze_audio.best_corr st).
      split_and!; [exact Hj | exact Hlt |].
      intros j' k c' Hl. split.
      * eapply Hall. eapply list_elem_of_lookup_2. exact Hl.
      * intros Hj'. eapply Hbefore; eassumption.
Qed.

Lemma estimate_key_first_maximum_witness :
  ∃ key,
    analyze_audio.estimate_key
      (fun x y => Some (Qsum (zip_with Qmult x y)))
      [0; 0; 1; 0; 0; 0; 1; 0; 0; 1; 0; 0]%Q = Ok key ∧
    key ∈ (key_candidates (fun x y => Some (Qsum (zip_with Qmult x y)))
             [0; 0; 1; 0; 0; 0; 1; 0; 0; 1; 0; 0]%Q).*1.
Proof.
  destruct (estimate_key_first_maximum
              (fun x y => Some (Qsum (zip_with Qmult x y)))
              [0; 0; 1; 0; 0; 0; 1; 0; 0; 1; 0; 0]%Q)
    as (key & H & Hin & _).
  - reflexivity.
  - exists key. split; [exact H | exact Hin].
Defined.

(** ** Energy curve of the analysis sidecar *)

Lemma pyround_exact (x : Q) (ndigits : nat) (a : Z) :
  (x == inject_Z a)%Q →
  (pyround x ndigits == inject_Z a)%Q.
Proof.
  intros Hx.
  destruct (pyround_bounds x ndigits (a * Zpos (pow10 ndigits))
              (a * Zpos (pow10 ndigits))) as [Ha Hb].
  - rewrite Hx, inject_Z_mult. apply Qle_refl.
  - rewrite Hx, inject_Z_mult. apply Qle_refl.
  - assert (He : (a * Zpos (pow10 ndigits) # pow10 ndigits == inject_Z a)%Q).
    { unfold Qeq, inject_Z. simpl. lia. }
    rewrite He in Ha, Hb. apply Qle_antisym; assumption.
Qed.

Lemma energy_values (rms : list Q) (mx : Q) :
  Forall (fun v => (0 <= v)%Q) rms →
  Forall (fun v => (v <= mx)%Q) rms →
  Forall unit_interval
    (map (fun v => pyround (v / (if Qltb 0 mx then mx else 1)) 4) rms).
Proof.
  intros Hpos Hmax. apply Forall_map.
  apply Forall_forall. intros v Hv.
  pose proof (proj1 (Forall_forall _ _) Hpos v Hv) as H0.
  pose proof (proj1 (Forall_forall _ _) Hmax v Hv) as H1.
  simpl in H0, H1. apply pyround_unit.
  destruct (Qltb 0 mx) eqn:E.
  - apply Qltb_true in E. split.
    + apply Qle_shift_div_l; [exact E | lra].
    + apply Qle_shift_div_r; [exact E | lra].
  - apply Qltb_false in E. split.
    + apply Qle_shift_div_l; lra.
    + apply Qle_shift_div_r; lra.
Qed.

(** X16.  When the energy curve is requested and the RMS values are
    non-negative, the sidecar returns one energy value per RMS frame, each
    between 0 and 1; the curve reaches exactly 1 when some frame is not
    silent, and is all zero for a silent track (no division by zero).  The
    sampling rate and hop length default to 22050 and 2205. *)
Theorem energy_peak_normalised (load : analyze_audio.librosa)
    (corr : analyze_audio.correlation) (config : analyze_audio.config)
    (r : analyze_audio.analysis) :
  analyze_audio.analyze load corr config = Ok r →
  "energy" ∈ analyze_audio.requested_of config →
  ∃ x e,
    load (analyze_audio.audioPath config)
         (default 22050%Z (analyze_audio.sampleRate config))
         (default 2205%Z (analyze_audio.hopLength config)) = Ok x ∧
    analyze_audio.energy r = Some e ∧
    length e = length (analyze_audio.l_rms x) ∧
    (Forall (fun v => (0 <= v)%Q) (analyze_audio.l_rms x) →
     Forall unit_interval e ∧
     (Exists (fun v => (0 < v)%Q) (analyze_audio.l_rms x) →
      Exists (fun v => (v == 1)%Q) e) ∧
     (Forall (fun v => (v == 0)%Q) (analyze_audio.l_rms x) →
      Forall (fun v => (v == 0)%Q) e)).
Proof.
  intros H Hreq. unfold analyze_audio.analyze in H.
  apply bind_ok in H as (x & Hload & H).
  unfold analyze_audio.analyze_loaded in H.
  rewrite (bool_decide_eq_true_2 _ Hreq) in H.
  apply bind_ok in H as (en & Hen & H).
  apply bind_ok in Hen as (mx & Hmx & Hen).
  apply bind_ok in H as (k & _ & H).
  injection Hen as <-. injection H as <-.
  exists x. eexists. split_and!; [exact Hload | reflexivity | |].
  { simpl. rewrite length_map. reflexivity. }
  intros Hpos. cbn [analyze_audio.energy].
  destruct (analyze_audio.l_rms x) as [|v0 rms] eqn:Erms; [discriminate|].
  injection Hmx as <-.
  pose proof (fold_Qmax_ge rms v0) as [Hge0 Hge].
  pose proof (fold_Qmax_elem rms v0) as Hin.
  set (mx := fold_left Qmax rms v0) in *.
  assert (Hmax : Forall (fun v => (v <= mx)%Q) (v0 :: rms))
    by (constructor; assumption).
  split_and!.
  - apply energy_values; assumption.
  - intros Hex.
    assert (Hmx : (0 < mx)%Q).
    { apply Exists_exists in Hex as (v & Hv & Hv0).
      eapply Qlt_le_trans; [exact Hv0|].
      exact (proj1 (Forall_forall _ _) Hmax v Hv). }
    apply Exists_exists. eexists. split.
    + apply list_elem_of_fmap. exists mx. split; [reflexivity | exact Hin].
    + simpl. rewrite (proj2 (Qltb_true 0 mx) Hmx).
      apply (pyround_exact _ 4 1). field. lra.
  - intros Hzero. apply Forall_map. apply Forall_forall. intros v Hv.
    pose proof (proj1 (Forall_forall _ _) Hzero v Hv) as Hv0. simpl in Hv0.
    simpl. apply (pyround_exact _ 4 0).
    assert (Hmx : (mx == 0)%Q).
    { exact (proj1 (Forall_forall _ _) Hzero mx Hin). }
    rewrite (proj2 (Qltb_false 0 mx)) by lra.
    rewrite Hv0. reflexivity.
Qed.

Lemma energy_peak_normalised_witness :
  ∃ e,
    analyze_audio.energy
      {| analyze_audio.ok := true;
         analyze_audio.durationSec := pyround 3 2;
         analyze_audio.energy :=
           Some (map (fun v => pyround (v / (1 # 2)) 4) [1 # 4; 1 # 2; 0]%Q);
         analyze_audio.tempo := None;
         analyze_audio.spectralCentroid := None;
         analyze_audio.onsets := None;
         analyze_audio.key := None |} = Some e ∧
    length e = 3.
Proof.
  destruct (energy_peak_normalised
              (fun _ _ _ =>
                 Ok {| analyze_audio.l_duration := 3;
                       analyze_audio.l_sr := 22050;
                       analyze_audio.l_rms := [1 # 4; 1 # 2; 0]%Q;
                       analyze_audio.l_tempo := [120]%Q;
                       analyze_audio.l_cent := [1000; 2000; 1500]%Q;
                       analyze_audio.l_onset_times := [1 # 2]%Q;
                       analyze_audio.l_chroma_mean := [] |})
              (fun _ _ => None)
              {| analyze_audio.audioPath := "song.mp3";
                 analyze_audio.sampleRate := None;
                 analyze_audio.hopLength := None;
                 analyze_audio.analyses := Some ["energy"] |}
              _ eq_refl)
    as (x & e & Hx & He & Hlen & _).
  - compute_done.
  - exists e. injection Hx as <-. split; [exact He | exact Hlen].
Defined.

(** ** Word extraction of the alignment sidecar *)

Lemma map_lookup_Some {A B} (f : A → B) (l : list A) (i : nat) (a : A) :
  l !! i = Some a → map f l !! i = Some (f a).
Proof.
  intros H. change (map f l) with (f <$> l).
  rewrite list_lookup_fmap, H. reflexivity.
Qed.

Lemma words_loop_filter (strip : string → string)
    (ws : list align_lyrics.aligned_word)
    (acc : list align_lyrics.word_entry) :
  align_lyrics.words_loop strip ws acc
  = acc ++ filter (fun e => align_lyrics.word e ≠ "")
             (map (align_lyrics.entry_of strip) ws).
Proof.
  revert acc. induction ws as [|w ws IH]; intros acc.
  - simpl. rewrite app_nil_r. reflexivity.
  - cbn [align_lyrics.words_loop map]. rewrite IH, filter_cons.
    destruct (decide (align_lyrics.word (align_lyrics.entry_of strip w) = ""))
      as [He | He].
    + rewrite (bool_decide_eq_true_2 _ He).
      rewrite decide_False by (intros Hn; exact (Hn He)). reflexivity.
    + rewrite (bool_decide_eq_false_2 _ He).
      rewrite decide_True by exact He.
      rewrite <- app_assoc. reflexivity.
Qed.

Lemma segments_words_filter (strip : string → string)
    (segs : list align_lyrics.aligned_segment)
    (acc : list align_lyrics.word_entry) :
  align_lyrics.segments_words strip segs acc
  = acc ++ filter (fun e => align_lyrics.word e ≠ "")
             (map (align_lyrics.entry_of strip) (all_words segs)).
Proof.
  revert acc. induction segs as [|seg segs IH]; intros acc.
  - simpl. rewrite app_nil_r. reflexivity.
  - cbn [align_lyrics.segments_words]. rewrite IH, words_loop_filter.
    unfold all_words. cbn [flat_map].
    rewrite map_app, filter_app, app_assoc. reflexivity.
Qed.

Lemma segments_loop_map (strip : string → string)
    (segs : list align_lyrics.aligned_segment)
    (acc : list align_lyrics.segment_entry) :
  align_lyrics.segments_loop strip segs acc
  = acc ++ map (fun seg =>
                  {| align_lyrics.seg_start :=
                       pyround (default 0%Q (align_lyrics.s_start seg)) 3;
                     align_lyrics.seg_end :=
                       pyround (default 0%Q (align_lyrics.s_end seg)) 3;
                     align_lyrics.text :=
                       strip (default "" (align_lyrics.s_text seg)) |})
             segs.
Proof.
  revert acc. induction segs as [|seg segs IH]; intros acc.
  - simpl. rewrite app_nil_r. reflexivity.
  - cbn [align_lyrics.segments_loop map]. rewrite IH, <- app_assoc.
    reflexivity.
Qed.

(** X17.  The alignment sidecar returns the words of all segments in their
    original order, each stripped and with its times rounded to three
    places, dropping exactly those whose stripped text is empty: no returned
    word is empty, and a score is present exactly when WhisperX gave one.
    The segments are never dropped: one is returned per aligned segment,
    even when its text is empty. *)
Theorem aligned_words_nonempty (strip : string → string)
    (aligned_segments : option (list align_lyrics.aligned_segment)) :
  let segs := default [] aligned_segments in
  let out := align_lyrics.align strip aligned_segments in
  align_lyrics.words out
  = filter (fun e => align_lyrics.word e ≠ "")
      (map (align_lyrics.entry_of strip) (all_words segs)) ∧
  Forall (fun e => align_lyrics.word e ≠ "") (align_lyrics.words out) ∧
  (∀ w, is_Some (align_lyrics.score (align_lyrics.entry_of strip w))
        ↔ is_Some (align_lyrics.w_score w)) ∧
  length (align_lyrics.segments out) = length segs ∧
  (∀ i seg, segs !! i = Some seg →
     ∃ e, align_lyrics.segments out !! i = Some e ∧
          align_lyrics.text e = strip (default "" (align_lyrics.s_text seg))).
Proof.
  intros segs out. subst out. unfold align_lyrics.align. fold segs.
  cbn [align_lyrics.words align_lyrics.segments].
  rewrite segments_words_filter, segments_loop_map. cbn [app].
  split_and!.
  - reflexivity.
  - apply Forall_forall. intros e He.
    apply list_elem_of_filter in He as [He _]. exact He.
  - intros w. unfold align_lyrics.entry_of. cbn [align_lyrics.score].
    rewrite fmap_is_Some. reflexivity.
  - rewrite length_map. reflexivity.
  - intros i seg Hi. eexists. split.
    + apply (map_lookup_Some _ _ _ _ Hi).
    + reflexivity.
Qed.

Lemma aligned_words_nonempty_witness :
  Forall (fun e => align_lyrics.word e ≠ "")
    (align_lyrics.words
       (align_lyrics.align (fun s => s)
          (Some [{| align_lyrics.s_start := Some (1 # 2);
                    align_lyrics.s_end := Some 2%Q;
                    align_lyrics.s_text := Some "Morning dew";
                    align_lyrics.s_words :=
                      Some [{| align_lyrics.w_word := Some "Morning";
                               align_lyrics.w_start := Some (1 # 2);
                               align_lyrics.w_end := Some 1%Q;
                               align_lyrics.w_score := Some (9 # 10) |};
                            {| align_lyrics.w_word := Some "";
                               align_lyrics.w_start := None;
                               align_lyrics.w_end := None;
                               align_lyrics.w_score := None |};
                            {| align_lyrics.w_word := Some "dew";
                               align_lyrics.w_start := Some (3 # 2);
                               align_lyrics.w_end := Some 2%Q;
                               align_lyrics.w_score := None |}] |}]))).
Proof.
  apply (aligned_words_nonempty (fun s => s)).
Defined.
